(** * proto2json: a shallow embedding of [main.go]

    The program decodes hex-encoded protocol-buffer payloads against a
    descriptor set loaded at run time, embeds the decoded value in a CSV
    record and writes one serialized record per line.

    The Go functions of [main.go] are embedded one by one, keeping their
    names.  Library calls ([proto.Unmarshal], [json.Marshal], the file
    system, the CSV reader, ...) are answered by an environment record;
    [encoding/hex] and [strings.Split] are small enough to be written out.
    A Go panic is a separate outcome, distinct from a returned [error]. *)

From Stdlib Require Import ZArith NArith Lia String Ascii.
From Stdlib.Strings Require Import Byte.
From stdpp Require Import base option list gmap strings.

Local Open Scope Z_scope.
Set Warnings "-register-all".

(** ** Go values, errors and panics *)

Abbreviation byte := Byte.byte (only parsing).

Definition byte_val (b : byte) : Z := Z.of_N (Byte.to_N b).

Definition byte_of_Z (z : Z) : byte :=
  match Byte.of_N (Z.to_N z) with
  | Some b => b
  | None => Byte.x00
  end.

(** [[]byte(s)] for a Go string. *)
Definition bytes_of_string (s : string) : list byte := list_byte_of_string s.

(** Go's [int] is 64 bits wide, [uint32] 32 bits; arithmetic wraps around. *)
Definition wrap_int (z : Z) : Z := (z + 2 ^ 63) mod 2 ^ 64 - 2 ^ 63.
Definition wrap_uint32 (z : Z) : Z := z mod 2 ^ 32.
Definition max_int : Z := 2 ^ 63 - 1.

Inductive error : Type :=
| EOF                                                   (* io.EOF *)
| ErrLength                                             (* hex.ErrLength *)
| InvalidByteError (b : byte)                           (* hex.InvalidByteError *)
| ErrHexDecode (pos : Z) (err : error) (length : Z) (b : byte)
    (* "error: pos:%v, err:%v, length: %v b:%v" *)
| ErrReadCsv                                            (* "faield to read csv data" *)
| ErrNotEnoughFields (count : Z)
    (* "the %dth line hasn't enough field data" *)
| ErrEmptyFieldName                                     (* "the field's name can't be empty" *)
| ErrDataFieldMissing (dataField : string)
    (* "the data field '%s' isn't in fields list" *)
| ErrReceiverCount
    (* "the receiver count is less and equal than zero" *)
| ErrInvalidWriter (name : string)                      (* "invalid writer name:%v" *)
| ErrInvalidMarshaler (name : string)                   (* "invalid marshaler name:%v" *)
| ErrExternal (msg : string).                           (* raised by a library or the OS *)

Inductive PanicValue : Type :=
| PanicError (e : error)                (* panic(err) *)
| PanicIndex (i : Z) (len : Z)          (* runtime error: index out of range [i] with length len *)
| PanicTypeAssertion                    (* interface conversion failed *)
| PanicTypeMismatch                     (* protoreflect.Value accessor on the wrong kind *)
| PanicMakeSlice                        (* makeslice: len out of range *)
| PanicMakeChan.                        (* makechan: size out of range *)

(** The result of running a Go function: it returns, or it panics. *)
Inductive Outcome (A : Type) : Type :=
| Return (a : A)
| Panic (p : PanicValue).
Arguments Return {A} a.
Arguments Panic {A} p.

Definition obind {A B} (m : Outcome A) (k : A → Outcome B) : Outcome B :=
  match m with
  | Return a => k a
  | Panic p => Panic p
  end.

#[global] Instance Outcome_ret : MRet Outcome := @Return.
#[global] Instance Outcome_bind : MBind Outcome := λ A B k m, obind m k.

Definition returned {A} (m : Outcome A) : Prop := ∃ a, m = Return a.
Definition panicked {A} (m : Outcome A) : Prop := ∃ p, m = Panic p.

(** [s[i]] on a slice: a run-time bounds check. *)
Definition index {A} (s : list A) (i : nat) : Outcome A :=
  match s !! i with
  | Some x => Return x
  | None => Panic (PanicIndex (Z.of_nat i) (Z.of_nat (length s)))
  end.

(** ** protoreflect: descriptors, values, dynamic messages *)

Inductive Kind : Type :=
| BoolKind | Int32Kind | Int64Kind | Uint32Kind | Uint64Kind
| FloatKind | DoubleKind | StringKind | BytesKind | EnumKind | MessageKind.

Record FieldDescriptor : Type := {
  Name : string;
  Number : Z;
  IsList : bool;            (* cardinality repeated, not a map *)
  IsMap : bool;
  FieldKind : Kind
}.

#[global] Instance Kind_eq_dec : EqDecision Kind.
Proof. solve_decision. Defined.

#[global] Instance FieldDescriptor_eq_dec : EqDecision FieldDescriptor.
Proof. solve_decision. Defined.

Record MessageDescriptor : Type := {
  FullName : string;
  Fields : list FieldDescriptor       (* declaration order *)
}.

(** [protoreflect.Value] and [protoreflect.Message].  A message is known
    through its reflection interface only: [Has] and [Get]. *)
Inductive Value : Type :=
| VBool (b : bool)
| VInt32 (n : Z) | VInt64 (n : Z) | VUint32 (n : Z) | VUint64 (n : Z)
| VFloat32 (bits : Z) | VFloat64 (bits : Z)
| VString (s : string) | VBytes (b : list byte)
| VEnum (n : Z)
| VMessage (m : Message)
| VList (l : list Value)
| VMap (kv : list (Value * Value))
with Message : Type :=
| mkMessage (has : FieldDescriptor → bool) (get : FieldDescriptor → Value).

Definition Has (m : Message) (fd : FieldDescriptor) : bool :=
  match m with mkMessage has _ => has fd end.

Definition Get (m : Message) (fd : FieldDescriptor) : Value :=
  match m with mkMessage _ get => get fd end.

(** The dynamic values an [interface{}] holds in this program. *)
Inductive GoAny : Type :=
| ABool (b : bool)
| AInt32 (n : Z) | AInt64 (n : Z) | AUint32 (n : Z) | AUint64 (n : Z)
| AFloat32 (bits : Z) | AFloat64 (bits : Z)
| AString (s : string) | ABytes (b : list byte)
| AEnumNumber (n : Z)
| AMessage (m : Message)                (* protoreflect.Message *)
| AList (l : list Value)                (* protoreflect.List *)
| AMap (kv : list (Value * Value))      (* protoreflect.Map *)
| ASlice (l : list GoAny)               (* []interface{} *)
| AStringMap (m : gmap string GoAny).   (* map[string]interface{} *)

(** [Value.Interface()]: the Go value underlying a [protoreflect.Value]. *)
Definition Interface (v : Value) : GoAny :=
  match v with
  | VBool b => ABool b
  | VInt32 n => AInt32 n
  | VInt64 n => AInt64 n
  | VUint32 n => AUint32 n
  | VUint64 n => AUint64 n
  | VFloat32 x => AFloat32 x
  | VFloat64 x => AFloat64 x
  | VString s => AString s
  | VBytes b => ABytes b
  | VEnum n => AEnumNumber n
  | VMessage m => AMessage m
  | VList l => AList l
  | VMap kv => AMap kv
  end.

(** [Value.List()] panics unless the value holds a list. *)
Definition Value_List (v : Value) : Outcome (list Value) :=
  match v with
  | VList l => Return l
  | _ => Panic PanicTypeMismatch
  end.

(** ** convertToMap *)

(** The inner loop [for j := 0; j < v.Len(); j++ { list = append(list, v.Get(j).Interface()) }]. *)
Fixpoint convertToMap_list (v : list Value) (acc : list GoAny) : list GoAny :=
  match v with
  | [] => acc
  | x :: v' => convertToMap_list v' (acc ++ [Interface x])
  end.

(** The outer loop over [descriptor.Fields()], in declaration order. *)
Fixpoint convertToMap_fields (fields : list FieldDescriptor) (msg : Message)
    (result : gmap string GoAny) : Outcome (gmap string GoAny) :=
  match fields with
  | [] => Return result
  | field :: rest =>
      if negb (Has msg field) then convertToMap_fields rest msg result
      else
        value ← (if IsList field then
                   v ← Value_List (Get msg field);
                   Return (ASlice (convertToMap_list v []))
                 else Return (Interface (Get msg field)));
        convertToMap_fields rest msg (<[Name field := value]> result)
  end.

Definition convertToMap (descriptor : MessageDescriptor) (msg : Message)
    : Outcome (gmap string GoAny) :=
  convertToMap_fields (Fields descriptor) msg ∅.

(** The loops in closed form: the value stored for a field that is set,
    and the effect of one turn of the outer loop on [result]. *)
Definition field_value (msg : Message) (f : FieldDescriptor) : GoAny :=
  if IsList f then
    match Get msg f with
    | VList l => ASlice (Interface <$> l)
    | v => Interface v
    end
  else Interface (Get msg f).

Definition store_field (msg : Message) (result : gmap string GoAny)
    (f : FieldDescriptor) : gmap string GoAny :=
  if Has msg f then <[Name f := field_value msg f]> result else result.

(** ** encoding/hex *)

(** [reverseHexTable]: the value of a hex digit, [0xff] for any other byte. *)
Definition reverseHexTable (c : byte) : Z :=
  let v := byte_val c in
  if (48 <=? v) && (v <=? 57) then v - 48
  else if (97 <=? v) && (v <=? 102) then v - 97 + 10
  else if (65 <=? v) && (v <=? 70) then v - 65 + 10
  else 255.

Definition is_hex_digit (c : byte) : bool := reverseHexTable c <=? 15.

(** [hex.Decode(dst, src)]: returns the number of bytes written and the
    error, and the destination as it was left.  Writing [dst[i]] beyond the
    destination panics. *)
Fixpoint hex_Decode (dst : list byte) (i : nat) (src : list byte)
    : Outcome (list byte * nat * option error) :=
  match src with
  | p :: q :: rest =>
      let a := reverseHexTable p in
      let b := reverseHexTable q in
      if 15 <? a then Return (dst, i, Some (InvalidByteError p))
      else if 15 <? b then Return (dst, i, Some (InvalidByteError q))
      else if (i <? length dst)%nat
           then hex_Decode (<[i := byte_of_Z (Z.lor (Z.shiftl a 4) b)]> dst) (S i) rest
           else Panic (PanicIndex (Z.of_nat i) (Z.of_nat (length dst)))
  | [p] =>
      if 15 <? reverseHexTable p then Return (dst, i, Some (InvalidByteError p))
      else Return (dst, i, Some ErrLength)
  | [] => Return (dst, i, None)
  end.

(** [make([]byte, n)] *)
Definition make_bytes (n : Z) : Outcome (list byte) :=
  if n <? 0 then Panic PanicMakeSlice else Return (replicate (Z.to_nat n) Byte.x00).

(** ** The libraries and the operating system *)

Record FileDescriptorProto : Type := {
  fdp_name : string;
  fdp_message_type : list MessageDescriptor
}.

Record FileDescriptorSet : Type := { GetFile : list FileDescriptorProto }.

Record FileDescriptor : Type := {
  fd_path : string;
  fd_messages : list MessageDescriptor
}.

(** [protoregistry.Files] *)
Definition Files : Type := list FileDescriptor.

Inductive Descriptor : Type :=
| DMessage (d : MessageDescriptor)
| DEnum (name : string)
| DService (name : string).

(** Successive results of [csv.Reader.Read()]; once the list is used up
    every call returns [(nil, io.EOF)]. *)
Definition Reader : Type := list (option (list string) * option error).

(** An [*os.File] open for writing: what was written so far, and for each
    coming [Write] call whether it fails, after how many bytes and with
    which error. *)
Record File : Type := {
  contents : list byte;
  faults : list (option (nat * error))
}.

Record Env : Type := {
  ioutil_ReadFile : string → error + list byte;
  proto_Unmarshal_set : list byte → error + FileDescriptorSet;
  protodesc_NewFile : FileDescriptorProto → Files → error + FileDescriptor;
  Files_RegisterFile : Files → FileDescriptor → error + Files;
  Files_FindDescriptorByName : Files → string → error + Descriptor;
  proto_Unmarshal : list byte → MessageDescriptor → error + Message;
  json_Marshal : gmap string GoAny → error + list byte;
  os_Create : string → error + File;
  os_Open : string → error + Reader;
  csv_NewReader : string → Reader;
  (** the largest buffer [make(chan *Data, n)] can allocate *)
  chan_cap_max : Z
}.

(** What the reflection interface promises of a message of type
    [descriptor]: a repeated field that is set holds a list. *)
Definition well_typed (descriptor : MessageDescriptor) (msg : Message) : Prop :=
  ∀ f, f ∈ Fields descriptor → IsList f = true → Has msg f = true →
       ∃ l, Get msg f = VList l.

(** ** The wire format: which fields a payload carries

    A payload is a sequence of records, each a tag, [(number << 3) | type]
    as a varint, followed by a value whose extent the wire type gives.
    This is what "present on the wire" refers to; [proto.Unmarshal] itself
    stays a library call. *)

Module Wire.




End Wire.



(** ** unmarshalProtoData and parseData *)

Definition unmarshalProtoData (env : Env) (GlobalFiles : Files)
    (data : list byte) (msgName : string) : Outcome (error + gmap string GoAny) :=
  match Files_FindDescriptorByName env GlobalFiles msgName with
  | inl err => Return (inl err)
  | inr desc =>
      descriptor ← (match desc with
                    | DMessage d => Return d
                    | _ => Panic PanicTypeAssertion
                    end);
      match proto_Unmarshal env data descriptor with
      | inl err => Return (inl err)
      | inr msg => m ← convertToMap descriptor msg; Return (inr m)
      end
  end.

Definition byte_0 : byte := Byte.x30.
Definition byte_x : byte := Byte.x78.
Definition byte_X : byte := Byte.x58.

Definition byte_eqb (a b : byte) : bool := Byte.eqb a b.

(** The condition ['0' == data[0] && ('x' == data[1] || 'X' == data[1])];
    [&&] does not evaluate its right operand when the left one is false. *)
Definition has_marker (data : list byte) : Outcome bool :=
  d0 ← index data 0;
  if byte_eqb byte_0 d0 then
    d1 ← index data 1;
    Return (byte_eqb byte_x d1 || byte_eqb byte_X d1)
  else Return false.

(** Lines 78 to 90 of [parseData]: the payload text turned into bytes. *)
Definition parseData_binary (data : list byte) : Outcome (error + list byte) :=
  marker ← has_marker data;
  let len := Z.of_nat (length data) in
  '(binary, pos, err) ←
    (if marker : bool then
       binary ← make_bytes (len `quot` 2 - 1);
       hex_Decode binary 0 (drop 2 data)
     else
       binary ← make_bytes (len `quot` 2);
       hex_Decode binary 0 data);
  match err with
  | Some err =>
      b ← index data (length data - 1);
      Return (inl (ErrHexDecode (Z.of_nat pos) err len b))
  | None => Return (inr binary)
  end.

Definition parseData (env : Env) (GlobalFiles : Files)
    (data : list byte) (msgName : string) : Outcome (error + gmap string GoAny) :=
  r ← parseData_binary data;
  match r with
  | inl err => Return (inl err)
  | inr binary => unmarshalProtoData env GlobalFiles binary msgName
  end.

(** ** Records, the marshaler and the writers *)

Record Data : Type := {
  line : Z;                          (* uint32 *)
  data : gmap string GoAny
}.

Inductive Marshaler : Type := JsonMarshaler.

Definition Marshaler_Marshal (env : Env) (m : Marshaler) (value : gmap string GoAny)
    : error + list byte :=
  match m with JsonMarshaler => json_Marshal env value end.

(** [os.File.Write]: a nil file is an invalid argument; otherwise the
    next entry of [faults] decides the call. *)
Definition os_File_Write (f : option File) (b : list byte)
    : nat * option error * option File :=
  match f with
  | None => (0%nat, Some (ErrExternal "invalid argument"), None)
  | Some f =>
      match faults f with
      | Some (n, e) :: rest =>
          (length (take n b), Some e,
           Some {| contents := contents f ++ take n b; faults := rest |})
      | None :: rest =>
          (length b, None, Some {| contents := contents f ++ b; faults := rest |})
      | [] =>
          (length b, None, Some {| contents := contents f ++ b; faults := [] |})
      end
  end.

Record FileWriter : Type := {
  mutex : bool;                      (* true while locked *)
  file : option File                 (* nil until OpenFile *)
}.

Definition newline : byte := Byte.x0a.

Definition FileWriter_Write (w : FileWriter) (data : list byte)
    : option error * FileWriter :=
  (* w.mutex.Lock(); defer w.mutex.Unlock() *)
  let locked f := {| mutex := true; file := f |} in
  let unlock (w : FileWriter) := {| mutex := false; file := file w |} in
  let w := locked (file w) in
  let '(_, err, f1) := os_File_Write (file w) data in
  match err with
  | Some err => (Some err, unlock (locked f1))
  | None =>
      let '(_, err, f2) := os_File_Write f1 [newline] in
      match err with
      | Some _ => (None, unlock (locked f2))       (* line 135: return nil *)
      | None => (None, unlock (locked f2))
      end
  end.

(** ** ReadData *)

(** What one turn of the [for] loop of [ReadData] does. *)
Inductive Iter : Type :=
| IterBreak                          (* io.EOF: leave the loop, return nil *)
| IterReturn (e : error)             (* return an error *)
| IterSend (d : Data)                (* dataList <- data *)
| IterPanic (p : PanicValue).

(** [for k, v := range fields { data.data[v] = records[k] }] *)
Fixpoint ReadData_assign (fields : list string) (k : nat) (records : list string)
    (m : gmap string GoAny) : Outcome (gmap string GoAny) :=
  match fields with
  | [] => Return m
  | v :: rest =>
      r ← index records k;
      ReadData_assign rest (S k) records (<[v := AString r]> m)
  end.

(** One turn, given what [reader.Read()] returned; also the new [count]. *)
Definition ReadData_iter (read : option (list string) * option error)
    (fields : list string) (count : Z) : Iter * Z :=
  match read with
  | (_, Some EOF) => (IterBreak, count)
  | (None, _) => (IterReturn ErrReadCsv, count)
  | (Some records, _) =>
      let count := wrap_uint32 (count + 1) in
      if (length records <? length fields)%nat
      then (IterReturn (ErrNotEnoughFields count), count)
      else match ReadData_assign fields 0 records ∅ with
           | Return m => (IterSend {| line := count; data := m |}, count)
           | Panic p => (IterPanic p, count)
           end
  end.

(** [ReadData] run to its end against a channel that never blocks: the
    records sent, in order, and the value returned. *)
Fixpoint ReadData_loop (reader : Reader) (fields : list string) (count : Z)
    (dataList : list Data) : list Data * Outcome (option error) :=
  match reader with
  | [] => (dataList, Return None)
  | read :: reader' =>
      match ReadData_iter read fields count with
      | (IterBreak, _) => (dataList, Return None)
      | (IterReturn e, _) => (dataList, Return (Some e))
      | (IterPanic p, _) => (dataList, Panic p)
      | (IterSend d, count') => ReadData_loop reader' fields count' (dataList ++ [d])
      end
  end.

Definition ReadData (reader : Reader) (fields : list string)
    : list Data * Outcome (option error) :=
  ReadData_loop reader fields 0 [].

(** ** Process state: the I/O performed so far and the global registry *)

Inductive IOEvent : Type :=
| EvReadFile (name : string)         (* ioutil.ReadFile *)
| EvCreate (name : string)           (* os.Create *)
| EvOpen (name : string)             (* os.Open *)
| EvFileWrite (b : list byte)        (* a Write on the destination file *)
| EvStdout (b : list byte).          (* a write on standard output *)

Record World : Type := {
  io_trace : list IOEvent;           (* oldest first *)
  GlobalFiles : Files                (* protoregistry.GlobalFiles *)
}.

Definition initial_world : World := {| io_trace := []; GlobalFiles := [] |}.

(** Sequential Go code: it reads and changes the world, and returns or panics. *)
Definition M (A : Type) : Type := World → Outcome A * World.

#[global] Instance M_ret : MRet M := λ A a w, (Return a, w).
#[global] Instance M_bind : MBind M := λ A B k m w,
  match m w with
  | (Return a, w') => k a w'
  | (Panic p, w') => (Panic p, w')
  end.

Definition panic {A} (p : PanicValue) : M A := λ w, (Panic p, w).
Definition lift {A} (o : Outcome A) : M A := λ w, (o, w).
Definition emit (ev : IOEvent) : M unit :=
  λ w, (Return (), {| io_trace := io_trace w ++ [ev]; GlobalFiles := GlobalFiles w |}).
Definition get_GlobalFiles : M Files := λ w, (Return (GlobalFiles w), w).
Definition set_GlobalFiles (fs : Files) : M unit :=
  λ w, (Return (), {| io_trace := io_trace w; GlobalFiles := fs |}).

(** ** registerPbFile *)

Definition registerPbFile (env : Env) (filename : string) : M (option error) :=
  _ ← emit (EvReadFile filename);
  match ioutil_ReadFile env filename with
  | inl err => mret (Some err)
  | inr data =>
      match proto_Unmarshal_set env data with
      | inl err => mret (Some err)
      | inr set =>
          pb ← lift (index (GetFile set) 0);
          files ← get_GlobalFiles;
          match protodesc_NewFile env pb files with
          | inl err => mret (Some err)
          | inr fd =>
              match Files_RegisterFile env files fd with
              | inl err => mret (Some err)
              | inr files' => _ ← set_GlobalFiles files'; mret None
              end
          end
      end
  end.

(** ** main, up to the start of the goroutines (lines 201 to 246) *)

Record Flags : Type := {
  pbFile : string;
  msgName : string;
  data_flag : string;                (* -data *)
  srcFile : string;
  dstFile : string;
  receiverNum : Z;                   (* int *)
  writerName : string;
  marshalerName : string;
  fieldsParam : string;
  dataField : string
}.

(** [strings.Split(s, ",")] *)
Fixpoint strings_Split_comma (s : string) (cur : string) : list string :=
  match s with
  | EmptyString => [cur]
  | String c s' =>
      if Ascii.eqb c "," then cur :: strings_Split_comma s' ""
      else strings_Split_comma s' (cur +:+ String c "")
  end.

Definition strings_Split (s : string) : list string := strings_Split_comma s "".

(** The loop of lines 204 to 212; the value of [hasDataField] after it. *)
Fixpoint main_hasDataField (fields : list string) (dataField : string) : Outcome bool :=
  match fields with
  | [] => Return false
  | v :: rest =>
      if bool_decide (v = dataField) then Return true
      else if (String.length v =? 0)%nat then Panic (PanicError ErrEmptyFieldName)
      else main_hasDataField rest dataField
  end.

(** [make(chan *Data, size)] gives a queue of that capacity. *)
Definition make_chan (env : Env) (size : Z) : Outcome Z :=
  if (size <? 0) || (chan_cap_max env <? size) then Panic PanicMakeChan
  else Return size.

Inductive Writer : Type :=
| ConsoleWriter
| FileWriterOf (w : FileWriter).

Definition FileWriter_OpenFile (env : Env) (w : FileWriter) (filename : string)
    : M (option error * FileWriter) :=
  _ ← emit (EvCreate filename);
  match os_Create env filename with
  | inl err => mret (Some err, w)
  | inr f => mret (None, {| mutex := mutex w; file := Some f |})
  end.

Record Setup : Type := {
  fields_of : list string;
  dataList_cap : Z;
  writer_of : Writer;
  marshaler_of : Marshaler
}.

Definition main_init (env : Env) (fl : Flags) : M Setup :=
  let fields := strings_Split (fieldsParam fl) in
  hasDataField ← lift (main_hasDataField fields (dataField fl));
  if negb hasDataField then panic (PanicError (ErrDataFieldMissing (dataField fl)))
  else
    err ← registerPbFile env (pbFile fl);
    match err with
    | Some err => panic (PanicError err)
    | None =>
        if receiverNum fl <=? 0 then panic (PanicError ErrReceiverCount)
        else
          cap ← lift (make_chan env (wrap_int (receiverNum fl * 2)));
          writer ← (if bool_decide (writerName fl = "console") then mret ConsoleWriter
                    else if bool_decide (writerName fl = "file") then
                      '(err, fileWriter) ←
                        FileWriter_OpenFile env {| mutex := false; file := None |} (dstFile fl);
                      match err with
                      | Some err => panic (PanicError err)
                      | None => mret (FileWriterOf fileWriter)
                      end
                    else panic (PanicError (ErrInvalidWriter (writerName fl))));
          marshaler ← (if bool_decide (marshalerName fl = "json") then mret JsonMarshaler
                       else panic (PanicError (ErrInvalidMarshaler (marshalerName fl))));
          mret {| fields_of := fields; dataList_cap := cap;
                  writer_of := writer; marshaler_of := marshaler |}
    end.

(** ** main, the goroutines (lines 248 to 291)

    The producer runs [ReadData], the workers run the [for data := range
    dataList] loop, [main] starts the workers and waits for them.  With a
    source file the producer is a goroutine of its own; without one [main]
    runs [ReadData] itself and starts the workers only after it. *)

Record Config : Type := {
  cfg_env : Env;
  cfg_files : Files;                 (* GlobalFiles, read-only from here on *)
  cfg_flags : Flags;
  cfg_setup : Setup
}.

(** [0 != len(srcFile)] *)
Definition producer_is_goroutine (cfg : Config) : bool :=
  negb (String.length (srcFile (cfg_flags cfg)) =? 0)%nat.

Inductive Producer : Type :=
| PRead (reader : Reader) (count : Z)              (* at [reader.Read()] *)
| PSend (d : Data) (reader : Reader) (count : Z)   (* at [dataList <- data] *)
| PClose                                           (* at [close(dataList)] *)
| PDone.

Inductive Worker : Type :=
| WRange                             (* at [for data := range dataList] *)
| WBody (d : Data)                   (* in the loop body, with a record *)
| WDone.                             (* wg.Done() *)

Inductive MainPc : Type :=
| MainSpawn (i : Z)                  (* the loop of line 269 *)
| MainWait                           (* wg.Wait() *)
| MainExit.

Record Pipeline : Type := {
  producer : Producer;
  queue : list Data;                 (* the buffer of dataList, oldest first *)
  closed : bool;
  main_pc : MainPc;
  workers : list Worker;
  writer : Writer;
  stdout : list byte;
  crashed : option PanicValue        (* a panic ends the process *)
}.

(** The loop body of a worker up to the call of [writer.Write]. *)
Definition worker_text (cfg : Config) (d : Data) : Outcome (list byte) :=
  let fl := cfg_flags cfg in
  match data d !! dataField fl with
  | Some (AString s) =>
      r ← parseData (cfg_env cfg) (cfg_files cfg) (bytes_of_string s) (msgName fl);
      match r with
      | inl err => Panic (PanicError err)
      | inr msg =>
          let m := <[dataField fl := AStringMap msg]> (data d) in
          match Marshaler_Marshal (cfg_env cfg) (marshaler_of (cfg_setup cfg)) m with
          | inl err => Panic (PanicError err)
          | inr text => Return text
          end
      end
  | _ => Panic PanicTypeAssertion
  end.

(** [ConsoleWriter.Write]: [fmt.Printf("%s\n", data)], always nil. *)
Definition ConsoleWriter_Write (out : list byte) (text : list byte)
    : option error * list byte :=
  (None, out ++ text ++ [newline]).

(** [writer.Write(text)] through the interface. *)
Definition Writer_Write (w : Writer) (out : list byte) (text : list byte)
    : option error * Writer * list byte :=
  match w with
  | ConsoleWriter =>
      let '(err, out') := ConsoleWriter_Write out text in (err, ConsoleWriter, out')
  | FileWriterOf fw =>
      let '(err, fw') := FileWriter_Write fw text in (err, FileWriterOf fw', out)
  end.

Definition crash (s : Pipeline) (p : PanicValue) : Pipeline :=
  {| producer := producer s; queue := queue s; closed := closed s;
     main_pc := main_pc s; workers := workers s; writer := writer s;
     stdout := stdout s; crashed := Some p |}.

Definition set_producer (s : Pipeline) (p : Producer) : Pipeline :=
  {| producer := p; queue := queue s; closed := closed s;
     main_pc := main_pc s; workers := workers s; writer := writer s;
     stdout := stdout s; crashed := crashed s |}.

Definition set_main (s : Pipeline) (pc : MainPc) (ws : list Worker) : Pipeline :=
  {| producer := producer s; queue := queue s; closed := closed s;
     main_pc := pc; workers := ws; writer := writer s;
     stdout := stdout s; crashed := crashed s |}.

Definition set_worker (s : Pipeline) (k : nat) (w : Worker) (q : list Data) : Pipeline :=
  {| producer := producer s; queue := q; closed := closed s;
     main_pc := main_pc s; workers := <[k := w]> (workers s); writer := writer s;
     stdout := stdout s; crashed := crashed s |}.

(** The process is running: nothing panicked and [main] has not returned. *)
Definition alive (s : Pipeline) : Prop :=
  crashed s = None ∧ main_pc s ≠ MainExit.

(** [main] may go on to start workers: at once when the producer is a
    goroutine, otherwise only after its own call of [ReadData] and
    [close(dataList)]. *)
Definition main_past_ReadData (cfg : Config) (s : Pipeline) : Prop :=
  producer_is_goroutine cfg = true ∨ producer s = PDone.

Inductive step (cfg : Config) : Pipeline → Pipeline → Prop :=
| step_read s read reader count :
    alive s → producer s = PRead (read :: reader) count →
    step cfg s
      (match ReadData_iter read (fields_of (cfg_setup cfg)) count with
       | (IterBreak, _) => set_producer s PClose
       | (IterReturn e, _) => crash s (PanicError e)
       | (IterPanic p, _) => crash s p
       | (IterSend d, count') => set_producer s (PSend d reader count')
       end)
| step_read_eof s count :
    alive s → producer s = PRead [] count →
    step cfg s (set_producer s PClose)
| step_send s d reader count :
    alive s → producer s = PSend d reader count →
    Z.of_nat (length (queue s)) < dataList_cap (cfg_setup cfg) →
    step cfg s
      {| producer := PRead reader count; queue := queue s ++ [d]; closed := closed s;
         main_pc := main_pc s; workers := workers s; writer := writer s;
         stdout := stdout s; crashed := crashed s |}
| step_close s :
    alive s → producer s = PClose →
    step cfg s
      {| producer := PDone; queue := queue s; closed := true;
         main_pc := main_pc s; workers := workers s; writer := writer s;
         stdout := stdout s; crashed := crashed s |}
| step_spawn s i :
    alive s → main_past_ReadData cfg s → main_pc s = MainSpawn i →
    i < receiverNum (cfg_flags cfg) →
    step cfg s (set_main s (MainSpawn (i + 1)) (workers s ++ [WRange]))
| step_spawned s i :
    alive s → main_past_ReadData cfg s → main_pc s = MainSpawn i →
    receiverNum (cfg_flags cfg) <= i →
    step cfg s (set_main s MainWait (workers s))
| step_wait s :
    alive s → main_pc s = MainWait → Forall (λ w, w = WDone) (workers s) →
    step cfg s (set_main s MainExit (workers s))
| step_recv s k d q :
    alive s → workers s !! k = Some WRange → queue s = d :: q →
    step cfg s (set_worker s k (WBody d) q)
| step_range_end s k :
    alive s → workers s !! k = Some WRange → queue s = [] → closed s = true →
    step cfg s (set_worker s k WDone [])
| step_body s k d :
    alive s → workers s !! k = Some (WBody d) →
    step cfg s
      (match worker_text cfg d with
       | Panic p => crash s p
       | Return text =>
           match Writer_Write (writer s) (stdout s) text with
           | (Some err, w, out) =>
               crash {| producer := producer s; queue := queue s; closed := closed s;
                        main_pc := main_pc s; workers := workers s; writer := w;
                        stdout := out; crashed := None |} (PanicError err)
           | (None, w, out) =>
               {| producer := producer s; queue := queue s; closed := closed s;
                  main_pc := main_pc s; workers := <[k := WRange]> (workers s);
                  writer := w; stdout := out; crashed := crashed s |}
           end
       end).

(** The state in which [main] reaches line 248, given the rows the CSV
    reader will deliver. *)
Definition pipeline_start (cfg : Config) (reader : Reader) : Pipeline :=
  {| producer := PRead reader 0; queue := []; closed := false;
     main_pc := MainSpawn 0; workers := [];
     writer := writer_of (cfg_setup cfg); stdout := []; crashed := None |}.

Definition reachable (cfg : Config) (s0 s : Pipeline) : Prop := rtc (step cfg) s0 s.

(** No goroutine can move although the process has not ended: Go's
    "all goroutines are asleep - deadlock!". *)
Definition deadlocked (cfg : Config) (s : Pipeline) : Prop :=
  alive s ∧ ∀ s', ¬ step cfg s s'.

(** What the process wrote: standard output, or the destination file. *)
Definition output_of (w : Writer) (out : list byte) : list byte :=
  match w with
  | ConsoleWriter => out
  | FileWriterOf fw => match file fw with Some f => contents f | None => [] end
  end.

Definition output (s : Pipeline) : list byte := output_of (writer s) (stdout s).

(** A row the loop of [ReadData] accepts: a record with a column for each
    field name (a record may come with an error other than [io.EOF]). *)
Definition enough_columns (fields : list string)
    (read : option (list string) * option error) : Prop :=
  ∃ records, fst read = Some records ∧ snd read ≠ Some EOF ∧
             (length fields ≤ length records)%nat.

(** What holds of every state of a run in which [main] itself runs
    [ReadData] on [rows], as long as more rows remain than the queue can
    take: no worker exists, nothing was written, and the producer has read
    as many rows as the queue holds, or one more. *)
Definition inline_inv (cfg : Config) (rows : Reader) (s : Pipeline) : Prop :=
  crashed s = None ∧ main_pc s = MainSpawn 0 ∧ workers s = [] ∧ closed s = false ∧
  writer s = writer_of (cfg_setup cfg) ∧ stdout s = [] ∧
  Z.of_nat (length (queue s)) <= dataList_cap (cfg_setup cfg) ∧
  ((∃ c, producer s = PRead (drop (length (queue s)) rows) c) ∨
   (∃ d c, producer s = PSend d (drop (S (length (queue s))) rows) c)).

(** *** Accounting for the records of a run *)

(** The line a worker writes for a record. *)
Definition text_of (cfg : Config) (d : Data) : list byte :=
  match worker_text cfg d with
  | Return text => text
  | Panic _ => []
  end.

Definition lines (cfg : Config) (ds : list Data) : list byte :=
  ds ≫= λ d, text_of cfg d ++ [newline].

(** The records the workers hold, and those the producer has yet to send. *)
Definition held_by (w : Worker) : list Data :=
  match w with
  | WBody d => [d]
  | _ => []
  end.

Definition held (ws : list Worker) : list Data := ws ≫= held_by.

Definition pending (fields : list string) (p : Producer) : list Data :=
  match p with
  | PRead reader count => fst (ReadData_loop reader fields count [])
  | PSend d reader count => d :: fst (ReadData_loop reader fields count [])
  | PClose | PDone => []
  end.

Definition rows_left (p : Producer) : Reader :=
  match p with
  | PRead reader _ | PSend _ reader _ => reader
  | PClose | PDone => []
  end.

Definition is_PDone (p : Producer) : bool :=
  match p with PDone => true | _ => false end.

(** A writer whose writes do not fail: the console, or an open file with
    no fault ahead. *)
Definition faultless (w : Writer) : Prop :=
  match w with
  | ConsoleWriter => True
  | FileWriterOf fw => ∃ f, file fw = Some f ∧ faults f = []
  end.

(** What holds of every state of a run in which the producer is a
    goroutine, all rows are valid and no write fails. *)
Definition goroutine_inv (cfg : Config) (rows : Reader) (s : Pipeline) : Prop :=
  let fields := fields_of (cfg_setup cfg) in
  let W := receiverNum (cfg_flags cfg) in
  crashed s = None ∧
  faultless (writer s) ∧
  closed s = is_PDone (producer s) ∧
  Forall (enough_columns fields) (rows_left (producer s)) ∧
  match main_pc s with
  | MainSpawn i => 0 <= i <= W ∧ Z.of_nat (length (workers s)) = i
  | MainWait => Z.of_nat (length (workers s)) = W
  | MainExit => Z.of_nat (length (workers s)) = W ∧ Forall (λ w, w = WDone) (workers s)
  end ∧
  (WDone ∈ workers s → closed s = true ∧ queue s = []) ∧
  ∃ written,
    output s = output (pipeline_start cfg rows) ++ lines cfg written ∧
    written ++ held (workers s) ++ queue s ++ pending fields (producer s)
      ≡ₚ fst (ReadData rows fields).

(** A bound on the number of steps a state has left. *)
Definition measure (cfg : Config) (s : Pipeline) : nat :=
  match crashed s with
  | Some _ => 0
  | None =>
      match producer s with
      | PRead reader _ => 4 * length reader + 2
      | PSend _ reader _ => 4 * length reader + 5
      | PClose => 1
      | PDone => 0
      end
      + 2 * length (queue s)
      + sum_list_with (λ w, match w with WRange => 1 | WBody _ => 2 | WDone => 0 end) (workers s)
      + match main_pc s with
        | MainSpawn i => 2 * Z.to_nat (receiverNum (cfg_flags cfg) - i) + 2
        | MainWait => 1
        | MainExit => 0
        end
  end%nat.

(** The rows the producer reads: those of [srcFile] when one is given
    (opening it may fail, which panics), else those of the [-data] text. *)
Definition main_reader (env : Env) (fl : Flags) : error + Reader :=
  if (String.length (srcFile fl) =? 0)%nat then inr (csv_NewReader env (data_flag fl))
  else os_Open env (srcFile fl).

#[global] Instance byte_eq_dec : EqDecision byte := Byte.byte_eq_dec.

(** ** A sample schema and environment

    [pkg.Person{name:string=1, age:int32=2}] and
    [pkg.Team{owner:Person=1, tags:repeated string=2, note:string=3}],
    with the libraries' answers for one descriptor file and two payloads. *)

Module Sample.

Definition name_field : FieldDescriptor :=
  {| Name := "name"; Number := 1; IsList := false; IsMap := false; FieldKind := StringKind |}.
Definition age_field : FieldDescriptor :=
  {| Name := "age"; Number := 2; IsList := false; IsMap := false; FieldKind := Int32Kind |}.
Definition Person : MessageDescriptor :=
  {| FullName := "pkg.Person"; Fields := [name_field; age_field] |}.

Definition owner_field : FieldDescriptor :=
  {| Name := "owner"; Number := 1; IsList := false; IsMap := false; FieldKind := MessageKind |}.
Definition tags_field : FieldDescriptor :=
  {| Name := "tags"; Number := 2; IsList := true; IsMap := false; FieldKind := StringKind |}.
Definition note_field : FieldDescriptor :=
  {| Name := "note"; Number := 3; IsList := false; IsMap := false; FieldKind := StringKind |}.
Definition Team : MessageDescriptor :=
  {| FullName := "pkg.Team"; Fields := [owner_field; tags_field; note_field] |}.

(** [{name:"Alice", age:30}] *)
Definition alice : Message :=
  mkMessage (λ fd, (Number fd =? 1) || (Number fd =? 2))
            (λ fd, if Number fd =? 1 then VString "Alice" else VInt32 30).

(** [{owner:{name:"Alice", age:30}, tags:["a","b"]}], no [note] *)
Definition team : Message :=
  mkMessage (λ fd, (Number fd =? 1) || (Number fd =? 2))
            (λ fd, if Number fd =? 1 then VMessage alice
                   else if Number fd =? 2 then VList [VString "a"; VString "b"]
                   else VString "").

(** The wire encodings: [0a 05 "Alice" 10 1e], and [0a 09] followed by
    that, [12 01 "a"] and [12 01 "b"]. *)
Definition alice_bytes : list byte :=
  [x0a; x05; x41; x6c; x69; x63; x65; x10; x1e].
Definition team_bytes : list byte :=
  [x0a; x09] ++ alice_bytes ++ [x12; x01; x61; x12; x01; x62].

Definition alice_hex : string := "0a05416c696365101e".

Definition schema : FileDescriptorProto :=
  {| fdp_name := "pkg.proto"; fdp_message_type := [Person; Team] |}.

Definition find (files : Files) (name : string) : error + Descriptor :=
  match List.find (λ d, bool_decide (FullName d = name)) (files ≫= fd_messages) with
  | Some d => inr (DMessage d)
  | None => inl (ErrExternal "not found")
  end.

Definition row (id : string) : option (list string) * option error :=
  (Some [id; alice_hex], None).

(** Three valid rows, as [-data] text and as the CSV reader delivers them. *)
Definition three_rows_text : string :=
  "1," +:+ alice_hex +:+ String "010" ("2," +:+ alice_hex +:+ String "010" ("3," +:+ alice_hex)).
Definition three_rows : Reader := [row "1"; row "2"; row "3"].

Definition env : Env :=
  {| ioutil_ReadFile name :=
       if bool_decide (name = "pkg.pb") then inr [x0a]
       else if bool_decide (name = "empty.pb") then inr []
       else inl (ErrExternal "no such file");
     proto_Unmarshal_set b :=
       match b with
       | [] => inr {| GetFile := [] |}
       | _ => inr {| GetFile := [schema] |}
       end;
     protodesc_NewFile pb files :=
       inr {| fd_path := fdp_name pb; fd_messages := fdp_message_type pb |};
     Files_RegisterFile files fd := inr (files ++ [fd]);
     Files_FindDescriptorByName := find;
     proto_Unmarshal b d :=
       if bool_decide (FullName d = "pkg.Person" ∧ b = alice_bytes) then inr alice
       else if bool_decide (FullName d = "pkg.Team" ∧ b = team_bytes) then inr team
       else inl (ErrExternal "proto: cannot parse invalid wire-format data");
     (* a stand-in for the JSON text: the record's [id] *)
     json_Marshal m :=
       match m !! "id" with
       | Some (AString s) => inr (bytes_of_string s)
       | _ => inr []
       end;
     os_Create name := inr {| contents := []; faults := [] |};
     os_Open name :=
       if bool_decide (name = "rows.csv") then inr three_rows
       else inl (ErrExternal "no such file");
     csv_NewReader text :=
       if bool_decide (text = three_rows_text) then three_rows else [];
     chan_cap_max := 2 ^ 40 |}.

Definition files : Files :=
  [{| fd_path := "pkg.proto"; fd_messages := [Person; Team] |}].

Definition flags : Flags :=
  {| pbFile := "pkg.pb"; msgName := "pkg.Person"; data_flag := three_rows_text;
     srcFile := ""; dstFile := ""; receiverNum := 1;
     writerName := "console"; marshalerName := "json";
     fieldsParam := "id,data"; dataField := "data" |}.

Definition setup : Setup :=
  {| fields_of := ["id"; "data"]; dataList_cap := 2;
     writer_of := ConsoleWriter; marshaler_of := JsonMarshaler |}.

(** The process after a successful start with [flags], reading from [-data]. *)
Definition cfg : Config :=
  {| cfg_env := env; cfg_files := files; cfg_flags := flags; cfg_setup := setup |}.

(** The same rows read from a source file. *)
Definition flags_file : Flags :=
  {| pbFile := "pkg.pb"; msgName := "pkg.Person"; data_flag := "";
     srcFile := "rows.csv"; dstFile := ""; receiverNum := 1;
     writerName := "console"; marshalerName := "json";
     fieldsParam := "id,data"; dataField := "data" |}.

Definition cfg_file : Config :=
  {| cfg_env := env; cfg_files := files; cfg_flags := flags_file; cfg_setup := setup |}.

End Sample.


(** ** Further notions used to state properties *)

(** The text after the optional marker, as line 81 decides it. *)
Definition payload_digits (data : list byte) : list byte :=
  match data with
  | d0 :: d1 :: rest =>
      if byte_eqb byte_0 d0 && (byte_eqb byte_x d1 || byte_eqb byte_X d1)
      then rest else data
  | _ => data
  end.

(** The byte [hex.Decode] stores for two digits: [(a << 4) | b]. *)
Definition hex_pair (p q : byte) : byte :=
  byte_of_Z (Z.lor (Z.shiftl (reverseHexTable p) 4) (reverseHexTable q)).


(** Further sample data. *)
Module Cases.

(** A registry that also knows an enum, [pkg.Color]. *)
Definition env_enum : Env :=
  {| ioutil_ReadFile := ioutil_ReadFile Sample.env;
     proto_Unmarshal_set := proto_Unmarshal_set Sample.env;
     protodesc_NewFile := protodesc_NewFile Sample.env;
     Files_RegisterFile := Files_RegisterFile Sample.env;
     Files_FindDescriptorByName files name :=
       if bool_decide (name = "pkg.Color") then inr (DEnum "pkg.Color")
       else Sample.find files name;
     proto_Unmarshal := proto_Unmarshal Sample.env;
     json_Marshal := json_Marshal Sample.env;
     os_Create := os_Create Sample.env;
     os_Open := os_Open Sample.env;
     csv_NewReader := csv_NewReader Sample.env;
     chan_cap_max := chan_cap_max Sample.env |}.

(** [{name:"Alice", age:30}] carrying one more field, number 3, that
    [pkg.Person] does not declare. *)
Definition alice_unknown : Message :=
  mkMessage (λ fd, (Number fd =? 1) || (Number fd =? 2) || (Number fd =? 3))
            (λ fd, if Number fd =? 1 then VString "Alice"
                   else if Number fd =? 2 then VInt32 30 else VBool true).

(** A message with nothing set. *)
Definition nothing_set : Message := mkMessage (λ _, false) (λ _, VBool false).

(** [pkg.Team] with a scalar where the repeated field [tags] should hold
    a list. *)
Definition team_ill_typed : Message :=
  mkMessage (λ fd, Number fd =? 2) (λ _, VString "a").



End Cases.


(** Configurations for the sample environment. *)
Module Configs.

Definition with_names (fieldsParam writerName marshalerName : string) : Flags :=
  {| pbFile := "pkg.pb"; msgName := "pkg.Person"; data_flag := "";
     srcFile := "rows.csv"; dstFile := "out.json"; receiverNum := 1;
     writerName := writerName; marshalerName := marshalerName;
     fieldsParam := fieldsParam; dataField := "data" |}.

(** The world once [pkg.pb] is registered. *)
Definition loaded : World :=
  {| io_trace := [EvReadFile "pkg.pb"]; GlobalFiles := Sample.files |}.

End Configs.


(** Successive calls of [FileWriter.Write] on one writer: the values they
    return, and the writer after the last. *)
Fixpoint FileWriter_Write_all (w : FileWriter) (texts : list (list byte))
    : list (option error) * FileWriter :=
  match texts with
  | [] => ([], w)
  | text :: rest =>
      let '(err, w') := FileWriter_Write w text in
      let '(errs, w'') := FileWriter_Write_all w' rest in
      (err :: errs, w'')
  end.

(** [main] gets as far as choosing the writer (line 227): the field list
    passed, the schema was registered leaving the world [w1], and the
    queue was made with capacity [cap]. *)
Definition main_reaches_writer (env : Env) (fl : Flags) (w w1 : World) (cap : Z) : Prop :=
  main_hasDataField (strings_Split (fieldsParam fl)) (dataField fl) = Return true ∧
  registerPbFile env (pbFile fl) w = (Return None, w1) ∧
  0 < receiverNum fl ∧
  make_chan env (wrap_int (receiverNum fl * 2)) = Return cap.


(** With a single worker the records keep their order: what was written,
    what the worker holds, the queue and what the producer has yet to send
    make up the input, in this order. *)
Definition fifo_inv (cfg : Config) (rows : Reader) (s : Pipeline) : Prop :=
  ∃ written,
    output s = output (pipeline_start cfg rows) ++ lines cfg written ∧
    written ++ held (workers s) ++ queue s ++ pending (fields_of (cfg_setup cfg)) (producer s)
      = fst (ReadData rows (fields_of (cfg_setup cfg))).

(** * Theorems *)

(** ** parseData on short payload texts *)

Lemma byte_eqb_false (a b : byte) : a ≠ b → byte_eqb a b = false.
Proof.
  intros Hne. unfold byte_eqb. destruct (Byte.eqb a b) eqn:E; [|done].
  by apply Byte.byte_dec_bl in E.
Qed.

Lemma parseData_binary_single (c : byte) :
  c ≠ byte_0 →
  ∃ err, parseData_binary [c] = Return (inl (ErrHexDecode 0 err 1 c))
         ∧ (err = ErrLength ∨ err = InvalidByteError c).
Proof.
  intros Hc. unfold parseData_binary, has_marker. cbn -[byte_eqb].
  rewrite byte_eqb_false by done. cbn.
  destruct (15 <? reverseHexTable c); cbn; eauto.
Qed.

(** C3, at the failing inputs.  The empty payload text has even length and
    no marker, and the text ["0"] has odd length: for neither does the
    normalizer return (zero bytes, resp. a DecodeError); indexing
    [data[0]], resp. [data[1]], panics. *)
Theorem parseData_binary_panics_on_short_text :
  parseData_binary (bytes_of_string "") = Panic (PanicIndex 0 0) ∧
  parseData_binary (bytes_of_string "0") = Panic (PanicIndex 1 1).
Proof. split; reflexivity. Qed.

(** C9, as the code has it.  [parseData] reads [data[0]] first and
    [data[1]] only when [data[0]] is ['0']: on the empty text and on the
    text ["0"] it panics with an index out of range; on any other text of
    one character it returns a DecodeError. *)
Theorem parseData_short_text (env : Env) (files : Files) (msgName : string) :
  parseData env files [] msgName = Panic (PanicIndex 0 0) ∧
  parseData env files [byte_0] msgName = Panic (PanicIndex 1 1) ∧
  ∀ c, c ≠ byte_0 →
       ∃ err, parseData env files [c] msgName = Return (inl (ErrHexDecode 0 err 1 c)).
Proof.
  split; [reflexivity|]. split; [reflexivity|].
  intros c Hc. destruct (parseData_binary_single c Hc) as (err & E & _).
  exists err. unfold parseData. by rewrite E.
Qed.

Lemma parseData_short_text_witness :
  Byte.x41 ≠ byte_0 ∧
  ∃ err, parseData Sample.env Sample.files [Byte.x41] "pkg.Person"
         = Return (inl (ErrHexDecode 0 err 1 Byte.x41)).
Proof.
  split; [discriminate|].
  apply (parseData_short_text Sample.env Sample.files "pkg.Person"). discriminate.
Defined.

(** C9 as stated fails: the one-character text ["A"] is no crash but a
    returned DecodeError. *)
Lemma parseData_one_char_returns_error :
  ¬ (∀ (env : Env) (files : Files) (data : list byte) (msgName : string),
       (length data < 2)%nat → panicked (parseData env files data msgName)).
Proof.
  intros H.
  destruct (H Sample.env Sample.files (bytes_of_string "A") "pkg.Person") as [p Hp].
  - cbn. lia.
  - vm_compute in Hp. discriminate.
Qed.

(** ** The byte normalizer on texts of two characters or more *)

Lemma list_pair_ind {A} (P : list A → Prop) :
  P [] → (∀ x, P [x]) → (∀ x y l, P l → P (x :: y :: l)) → ∀ l, P l.
Proof.
  intros H0 H1 H2. fix IH 1. intros [|x [|y l]]; [exact H0|apply H1|].
  apply H2, IH.
Qed.

Lemma quot_2_div2 (n : nat) : Z.of_nat n `quot` 2 = Z.of_nat (Nat.div2 n).
Proof.
  rewrite Z.quot_div_nonneg by lia. rewrite Nat.div2_div.
  by rewrite Nat2Z.inj_div.
Qed.

(** [hex.Decode] with room in the destination: it never panics and keeps
    the destination's length; on an even number of hex digits it writes
    half as many bytes and reports no error; on an odd number of bytes it
    reports an error. *)
Lemma hex_Decode_spec (src : list byte) :
  ∀ (dst : list byte) (i : nat),
    (i + Nat.div2 (length src) ≤ length dst)%nat →
    ∃ dst' j err,
      hex_Decode dst i src = Return (dst', j, err) ∧
      length dst' = length dst ∧
      (Forall (λ c, is_hex_digit c = true) src → Nat.Even (length src) →
       err = None ∧ j = (i + Nat.div2 (length src))%nat) ∧
      (Nat.Odd (length src) → err ≠ None).
Proof.
  induction src as [|p|p q rest IH] using list_pair_ind; intros dst i Hroom.
  - exists dst, i, None. cbn. split; [done|]. split; [done|]. split.
    + intros _ _. split; [done|lia].
    + intros [k Hk]. lia.
  - cbn. destruct (15 <? reverseHexTable p); eexists _, _, _;
      (split; [done|]; split; [done|]; split; [|done]);
      intros _ [k Hk]; cbn in Hk; lia.
  - cbn [hex_Decode]. cbn [length Nat.div2] in *.
    set (h := Nat.div2 (length rest)) in *. clearbody h.
    destruct (15 <? reverseHexTable p) eqn:Hp.
    { eexists _, _, _. split; [done|]. split; [done|]. split; [|done].
      intros Hhex _. apply Forall_cons in Hhex as [Hhex _].
      unfold is_hex_digit in Hhex. apply Z.leb_le in Hhex. apply Z.ltb_lt in Hp. lia. }
    destruct (15 <? reverseHexTable q) eqn:Hq.
    { eexists _, _, _. split; [done|]. split; [done|]. split; [|done].
      intros Hhex _. apply Forall_cons in Hhex as [_ Hhex].
      apply Forall_cons in Hhex as [Hhex _].
      unfold is_hex_digit in Hhex. apply Z.leb_le in Hhex. apply Z.ltb_lt in Hq. lia. }
    rewrite (proj2 (Nat.ltb_lt i (length dst))) by lia.
    destruct (IH (<[i := byte_of_Z (Z.lor (Z.shiftl (reverseHexTable p) 4) (reverseHexTable q))]> dst)
                 (S i)) as (dst' & j & err & Hrun & Hlen & Heven & Hodd).
    { rewrite length_insert. lia. }
    exists dst', j, err. rewrite length_insert in Hlen.
    split; [done|]. split; [done|]. split.
    + intros Hhex Hev. apply Forall_cons in Hhex as [_ Hhex].
      apply Forall_cons in Hhex as [_ Hhex].
      destruct Heven as [-> ->]; [done| |split; [done|lia]].
      destruct Hev as [k Hk]. exists (k - 1)%nat. lia.
    + intros [k Hk]. apply Hodd. exists (k - 1)%nat. lia.
Qed.

Lemma make_bytes_length (n : Z) :
  0 <= n → ∃ b, make_bytes n = Return b ∧ length b = Z.to_nat n.
Proof.
  intros Hn. unfold make_bytes. rewrite (proj2 (Z.ltb_ge _ _)) by lia.
  eexists. split; [done|]. by rewrite length_replicate.
Qed.

(** A marker and an even number of hex digits: [length/2 - 1] bytes. *)
Lemma parseData_binary_marker (m : byte) (digits : list byte) :
  m = byte_x ∨ m = byte_X →
  Forall (λ c, is_hex_digit c = true) digits →
  Nat.Even (length digits) →
  ∃ binary, parseData_binary (byte_0 :: m :: digits) = Return (inr binary) ∧
            Z.of_nat (length binary) = Z.of_nat (length (byte_0 :: m :: digits)) `quot` 2 - 1.
Proof.
  intros Hm Hhex Hev. unfold parseData_binary.
  assert (has_marker (byte_0 :: m :: digits) = Return true) as ->.
  { by destruct Hm as [-> | ->]. }
  unfold mbind, Outcome_bind. cbn [obind]. rewrite quot_2_div2. cbn [length Nat.div2 drop]. rewrite ?drop_0.
  pose proof (hex_Decode_spec digits) as Hdec.
  set (h := Nat.div2 (length digits)) in *. clearbody h.
  destruct (make_bytes_length (Z.of_nat (S h) - 1)) as (b & -> & Hb); [lia|]. cbn [obind].
  destruct (Hdec b 0%nat) as (dst' & j & err & -> & Hlen & Heven & _); [lia|].
  destruct (Heven Hhex Hev) as [-> ->]. cbn.
  eexists. split; [done|]. lia.
Qed.

(** No marker and an even, positive number of hex digits: [length/2] bytes. *)
Lemma parseData_binary_plain (data : list byte) :
  has_marker data = Return false →
  Forall (λ c, is_hex_digit c = true) data →
  Nat.Even (length data) →
  ∃ binary, parseData_binary data = Return (inr binary) ∧
            Z.of_nat (length binary) = Z.of_nat (length data) `quot` 2.
Proof.
  intros Hmark Hhex Hev. unfold parseData_binary. rewrite Hmark.
  unfold mbind, Outcome_bind. cbn [obind]. rewrite quot_2_div2.
  pose proof (hex_Decode_spec data) as Hdec.
  set (h := Nat.div2 (length data)) in *. clearbody h.
  destruct (make_bytes_length (Z.of_nat h)) as (b & -> & Hb); [lia|].
  cbn [obind].
  destruct (Hdec b 0%nat) as (dst' & j & err & -> & Hlen & Heven & _); [lia|].
  destruct (Heven Hhex Hev) as [-> ->]. cbn.
  eexists. split; [done|]. lia.
Qed.

(** An odd number of characters, three or more: a returned DecodeError that
    cites the position, the length and the last byte. *)
Lemma parseData_binary_odd (data : list byte) :
  (2 ≤ length data)%nat → Nat.Odd (length data) →
  ∃ pos err b, parseData_binary data =
                 Return (inl (ErrHexDecode pos err (Z.of_nat (length data)) b)).
Proof.
  intros Hlen Hodd. unfold parseData_binary.
  destruct data as [|d0 [|d1 rest]]; cbn in Hlen; try lia.
  assert (∃ mk, has_marker (d0 :: d1 :: rest) = Return mk) as [mk ->].
  { unfold has_marker. cbn -[byte_eqb]. destruct (byte_eqb byte_0 d0); eauto. }
  unfold mbind, Outcome_bind. cbn [obind]. rewrite quot_2_div2. cbn [length Nat.div2 drop]. rewrite ?drop_0.
  pose proof (hex_Decode_spec rest) as Hdec.
  pose proof (hex_Decode_spec (d0 :: d1 :: rest)) as Hdec2. cbn [length Nat.div2] in Hdec2.
  set (h := Nat.div2 (length rest)) in *. clearbody h.
  destruct mk.
  - destruct (make_bytes_length (Z.of_nat (S h) - 1)) as (b & -> & Hb); [lia|]. cbn [obind].
    destruct (Hdec b 0%nat) as (dst' & j & err & -> & _ & _ & Herr); [lia|].
    destruct err as [err|].
    + cbn. unfold index. rewrite ?Nat.sub_0_r.
      destruct (lookup_lt_is_Some_2 (d0 :: d1 :: rest) (S (length rest)) ltac:(cbn; lia))
        as [x ->]. cbn. eauto.
    + destruct Herr; [|done]. destruct Hodd as [k Hk]. exists (k - 1)%nat. cbn in Hk. lia.
  - destruct (make_bytes_length (Z.of_nat (S h))) as (b & -> & Hb); [lia|]. cbn [obind].
    destruct (Hdec2 b 0%nat) as (dst' & j & err & -> & _ & _ & Herr); [lia|].
    destruct err as [err|].
    + cbn. unfold index. rewrite ?Nat.sub_0_r.
      destruct (lookup_lt_is_Some_2 (d0 :: d1 :: rest) (S (length rest)) ltac:(cbn; lia))
        as [x ->]. cbn. eauto.
    + by destruct Herr.
Qed.

(** ** registerPbFile *)

(** C10.  When the file is read and deserializes to a descriptor set with
    no file entry, [registerPbFile] panics on [set.GetFile()[0]]; it does
    not return an error, and the registry is left as it was. *)
Theorem registerPbFile_empty_set_panics (env : Env) (filename : string)
    (w : World) (b : list byte) (set : FileDescriptorSet) :
  ioutil_ReadFile env filename = inr b →
  proto_Unmarshal_set env b = inr set →
  GetFile set = [] →
  registerPbFile env filename w =
    (Panic (PanicIndex 0 0),
     {| io_trace := io_trace w ++ [EvReadFile filename]; GlobalFiles := GlobalFiles w |}).
Proof.
  intros Hread Hset Hfiles. unfold registerPbFile.
  unfold mbind, M_bind, emit. cbn. rewrite Hread, Hset, Hfiles. reflexivity.
Qed.

Lemma registerPbFile_empty_set_panics_witness :
  registerPbFile Sample.env "empty.pb" initial_world =
    (Panic (PanicIndex 0 0),
     {| io_trace := [EvReadFile "empty.pb"]; GlobalFiles := [] |}).
Proof.
  apply (registerPbFile_empty_set_panics Sample.env "empty.pb" initial_world []
           {| GetFile := [] |}); reflexivity.
Defined.

(** ** FileWriter.Write *)

(** C5, at the failing input.  When the record bytes are written and the
    write of the newline fails, [Write] returns nil: the error is dropped
    (line 135 returns nil, not err), whatever was written of the newline. *)
Theorem FileWriter_Write_drops_newline_error (f : File) (rest : list (option (nat * error)))
    (n : nat) (e : error) (text : list byte) :
  faults f = None :: Some (n, e) :: rest →
  FileWriter_Write {| mutex := false; file := Some f |} text =
    (None, {| mutex := false;
              file := Some {| contents := (contents f ++ text) ++ take n [newline];
                              faults := rest |} |}).
Proof.
  intros Hf. unfold FileWriter_Write, os_File_Write. cbn. rewrite Hf. reflexivity.
Qed.

Lemma FileWriter_Write_drops_newline_error_witness :
  FileWriter_Write
    {| mutex := false;
       file := Some {| contents := [];
                       faults := [None; Some (0%nat, ErrExternal "no space left on device")] |} |}
    (bytes_of_string "{}") =
    (None, {| mutex := false;
              file := Some {| contents := ([] ++ bytes_of_string "{}") ++ take 0 [newline];
                              faults := [] |} |}).
Proof.
  apply (FileWriter_Write_drops_newline_error
           {| contents := [];
              faults := [None; Some (0%nat, ErrExternal "no space left on device")] |}
           [] 0 (ErrExternal "no space left on device") (bytes_of_string "{}")).
  reflexivity.
Defined.

(** The sibling path: a failed write of the record bytes is returned. *)
Lemma FileWriter_Write_returns_record_error (f : File) (rest : list (option (nat * error)))
    (n : nat) (e : error) (text : list byte) :
  faults f = Some (n, e) :: rest →
  fst (FileWriter_Write {| mutex := false; file := Some f |} text) = Some e.
Proof.
  intros Hf. unfold FileWriter_Write, os_File_Write. cbn. by rewrite Hf.
Qed.

(** The deferred [Unlock] runs on every path. *)
Lemma FileWriter_Write_unlocks (w : FileWriter) (text : list byte) :
  mutex (snd (FileWriter_Write w text)) = false.
Proof.
  unfold FileWriter_Write.
  destruct (os_File_Write _ text) as [[n [err|]] f1]; cbn; [done|].
  by destruct (os_File_Write f1 [newline]) as [[n2 [err|]] f2].
Qed.

(** ** main: validation of the configuration *)

Lemma main_hasDataField_absent (fields : list string) (dataField : string) :
  dataField ∉ fields →
  main_hasDataField fields dataField = Return false ∨
  main_hasDataField fields dataField = Panic (PanicError ErrEmptyFieldName).
Proof.
  induction fields as [|v rest IH]; intros Hnot; cbn; [by left|].
  rewrite not_elem_of_cons in Hnot. destruct Hnot as [Hne Hrest].
  rewrite bool_decide_eq_false_2 by congruence.
  destruct (String.length v =? 0)%nat; [by right|]. by apply IH.
Qed.

Lemma main_hasDataField_true (fields : list string) (dataField : string) :
  main_hasDataField fields dataField = Return true → dataField ∈ fields.
Proof.
  induction fields as [|v rest IH]; cbn; [discriminate|].
  case_bool_decide as Hv; [subst; intros _; apply list_elem_of_here|].
  destruct (String.length v =? 0)%nat; [discriminate|].
  intros H. apply list_elem_of_further. by apply IH.
Qed.

(** [registerPbFile] reads the descriptor file, whatever comes of it, and
    performs no other I/O. *)
Lemma registerPbFile_trace (env : Env) (filename : string) (w w' : World)
    (o : Outcome (option error)) :
  registerPbFile env filename w = (o, w') →
  io_trace w' = io_trace w ++ [EvReadFile filename].
Proof.
  unfold registerPbFile, mbind, M_bind, emit, lift, get_GlobalFiles, set_GlobalFiles, mret, M_ret.
  cbn.
  destruct (ioutil_ReadFile env filename) as [e|b]; [by intros [= <- <-]|].
  destruct (proto_Unmarshal_set env b) as [e|set]; [by intros [= <- <-]|].
  destruct (index (GetFile set) 0) as [pb|p]; cbn; [|by intros [= <- <-]].
  destruct (protodesc_NewFile env pb (GlobalFiles w)) as [e|fd]; cbn; [by intros [= <- <-]|].
  destruct (Files_RegisterFile env (GlobalFiles w) fd) as [e|fs]; cbn; by intros [= <- <-].
Qed.

(** C4, as the code has it.  A payload field missing from the field list
    is fatal before any I/O: [main] panics and the world is untouched.
    A worker count of zero or less is fatal too, but only after
    [registerPbFile] has read the descriptor file: that read is the one
    I/O event before the panic, and the panic is the ConfigError when the
    schema was loaded. *)
Theorem main_init_config_errors (env : Env) (fl : Flags) (w : World) :
  (dataField fl ∉ strings_Split (fieldsParam fl) →
   ∃ e, main_init env fl w = (Panic (PanicError e), w) ∧
        (e = ErrEmptyFieldName ∨ e = ErrDataFieldMissing (dataField fl))) ∧
  (main_hasDataField (strings_Split (fieldsParam fl)) (dataField fl) = Return true →
   receiverNum fl <= 0 →
   ∃ p w', main_init env fl w = (Panic p, w') ∧
           io_trace w' = io_trace w ++ [EvReadFile (pbFile fl)] ∧
           (fst (registerPbFile env (pbFile fl) w) = Return None →
            p = PanicError ErrReceiverCount)).
Proof.
  split.
  - intros Habs. unfold main_init, mbind, M_bind, lift.
    destruct (main_hasDataField_absent _ _ Habs) as [-> | ->]; cbn; eauto.
  - intros Hok Hrecv. unfold main_init, mbind, M_bind, lift. rewrite Hok. cbn.
    destruct (registerPbFile env (pbFile fl) w) as [o w'] eqn:Hreg.
    pose proof (registerPbFile_trace _ _ _ _ _ Hreg) as Htr.
    destruct o as [[err|]|p]; cbn.
    + exists (PanicError err), w'. split; [done|]. split; [done|]. discriminate.
    + rewrite (proj2 (Z.leb_le _ _) Hrecv). cbn.
      exists (PanicError ErrReceiverCount), w'. done.
    + exists p, w'. split; [done|]. split; [done|]. discriminate.
Qed.

Lemma main_init_config_errors_witness :
  (∃ e, main_init Sample.env
          {| pbFile := "pkg.pb"; msgName := "pkg.Person"; data_flag := "";
             srcFile := ""; dstFile := ""; receiverNum := 1;
             writerName := "console"; marshalerName := "json";
             fieldsParam := "id,payload"; dataField := "data" |} initial_world
        = (Panic (PanicError e), initial_world) ∧
        (e = ErrEmptyFieldName ∨ e = ErrDataFieldMissing "data")) ∧
  (∃ p w', main_init Sample.env
             {| pbFile := "pkg.pb"; msgName := "pkg.Person"; data_flag := "";
                srcFile := ""; dstFile := ""; receiverNum := 0;
                writerName := "console"; marshalerName := "json";
                fieldsParam := "id,data"; dataField := "data" |} initial_world
           = (Panic p, w') ∧
           io_trace w' = [] ++ [EvReadFile "pkg.pb"] ∧
           (fst (registerPbFile Sample.env "pkg.pb" initial_world) = Return None →
            p = PanicError ErrReceiverCount)).
Proof.
  split.
  - apply (main_init_config_errors Sample.env
             {| pbFile := "pkg.pb"; msgName := "pkg.Person"; data_flag := "";
                srcFile := ""; dstFile := ""; receiverNum := 1;
                writerName := "console"; marshalerName := "json";
                fieldsParam := "id,payload"; dataField := "data" |} initial_world).
    apply (bool_decide_unpack _). vm_compute. exact I.
  - apply (main_init_config_errors Sample.env
             {| pbFile := "pkg.pb"; msgName := "pkg.Person"; data_flag := "";
                srcFile := ""; dstFile := ""; receiverNum := 0;
                writerName := "console"; marshalerName := "json";
                fieldsParam := "id,data"; dataField := "data" |} initial_world).
    + reflexivity.
    + cbn. lia.
Defined.

(** C4 as stated fails: with a worker count of zero the descriptor file has
    been read by the time [main] panics. *)
Lemma main_init_worker_count_checked_after_read :
  ¬ (∀ (env : Env) (fl : Flags),
       receiverNum fl <= 0 →
       io_trace (snd (main_init env fl initial_world)) = []).
Proof.
  intros H.
  specialize (H Sample.env
                {| pbFile := "pkg.pb"; msgName := "pkg.Person"; data_flag := "";
                   srcFile := ""; dstFile := ""; receiverNum := 0;
                   writerName := "console"; marshalerName := "json";
                   fieldsParam := "id,data"; dataField := "data" |}).
  cbn in H. specialize (H ltac:(lia)). vm_compute in H. discriminate.
Qed.

(** ** main: the record queue *)

Lemma wrap_int_double (n : Z) :
  0 < n <= max_int → 0 <= wrap_int (n * 2) → wrap_int (n * 2) = 2 * n.
Proof.
  unfold wrap_int, max_int. intros Hn Hw.
  destruct (Z_lt_ge_dec (n * 2) (2 ^ 63)) as [Hlt|Hge].
  - rewrite Z.mod_small by lia. lia.
  - exfalso.
    replace ((n * 2 + 2 ^ 63) mod 2 ^ 64) with (n * 2 + 2 ^ 63 - 2 ^ 64) in Hw; [lia|].
    apply Z.mod_unique with (q := 1); lia.
Qed.

(** When twice the worker count fits the runtime's limit the queue is made. *)
Lemma make_chan_double (env : Env) (n : Z) :
  0 < n → 2 * n <= chan_cap_max env → chan_cap_max env <= max_int →
  make_chan env (wrap_int (n * 2)) = Return (2 * n).
Proof.
  unfold max_int. intros Hn Hcap Hmax.
  assert (wrap_int (n * 2) = 2 * n) as ->.
  { unfold wrap_int. rewrite Z.mod_small by lia. lia. }
  unfold make_chan.
  rewrite (proj2 (Z.ltb_ge _ _)) by lia. rewrite (proj2 (Z.ltb_ge _ _)) by lia. done.
Qed.

(** A worker count of [2^62] or more overflows [receiverNum*2]: no queue. *)
Lemma make_chan_overflow (env : Env) (n : Z) :
  2 ^ 62 <= n <= max_int → make_chan env (wrap_int (n * 2)) = Panic PanicMakeChan.
Proof.
  unfold max_int. intros Hn. unfold make_chan.
  assert (wrap_int (n * 2) < 0) as Hneg.
  { unfold wrap_int.
    replace ((n * 2 + 2 ^ 63) mod 2 ^ 64) with (n * 2 + 2 ^ 63 - 2 ^ 64); [lia|].
    apply Z.mod_unique with (q := 1); lia. }
  by rewrite (proj2 (Z.ltb_lt _ _) Hneg).
Qed.

(** C7, as the code has it.  For a positive worker count [W] such that
    [2 * W] is within what the runtime allocates for a channel, [make] is
    called with [receiverNum*2 = 2 * W] and the queue shared by the
    producer and the workers has capacity exactly [2 * W]; and whenever
    [main] gets past its set-up, the queue it holds has capacity
    [2 * W]. *)
Theorem main_init_queue_capacity (env : Env) (fl : Flags) :
  0 < receiverNum fl <= max_int →
  (2 * receiverNum fl <= chan_cap_max env <= max_int →
   make_chan env (wrap_int (receiverNum fl * 2)) = Return (2 * receiverNum fl)) ∧
  (∀ (w w' : World) (setup : Setup),
     main_init env fl w = (Return setup, w') →
     dataList_cap setup = 2 * receiverNum fl).
Proof.
  intros Hn. split; [intros Hcap; apply make_chan_double; lia|].
  intros w w' setup. unfold main_init, mbind, M_bind, lift, panic, mret, M_ret.
  destruct (main_hasDataField _ _) as [[|]|]; cbn; try discriminate.
  destruct (registerPbFile env (pbFile fl) w) as [[[err|]|p] w1]; cbn; try discriminate.
  destruct (receiverNum fl <=? 0); [discriminate|].
  unfold make_chan.
  destruct (wrap_int (receiverNum fl * 2) <? 0) eqn:Hneg; cbn; [discriminate|].
  destruct (chan_cap_max env <? _); cbn; [discriminate|].
  apply Z.ltb_ge in Hneg.
  intros Hret.
  assert (dataList_cap setup = wrap_int (receiverNum fl * 2)) as ->.
  { repeat case_bool_decide; cbn in Hret; try discriminate;
      repeat (match type of Hret with
              | context [FileWriter_OpenFile ?e ?fw ?n ?w] =>
                  destruct (FileWriter_OpenFile e fw n w) as [[[[?|] ?]|?] ?]; cbn in Hret
              end); try discriminate; by injection Hret as <- <-. }
  by apply wrap_int_double.
Qed.

Lemma main_init_queue_capacity_witness :
  make_chan Sample.env (wrap_int (receiverNum Sample.flags * 2)) = Return 2 ∧
  main_init Sample.env Sample.flags initial_world =
    (Return Sample.setup,
     {| io_trace := [EvReadFile "pkg.pb"]; GlobalFiles := Sample.files |}) ∧
  dataList_cap Sample.setup = 2 * receiverNum Sample.flags.
Proof.
  assert (0 < receiverNum Sample.flags <= max_int) as Hn.
  { unfold max_int. cbn. lia. }
  split; [|split; [reflexivity|]].
  - apply (proj1 (main_init_queue_capacity Sample.env Sample.flags Hn)).
    unfold max_int. cbn. lia.
  - apply (proj2 (main_init_queue_capacity Sample.env Sample.flags Hn) initial_world
             {| io_trace := [EvReadFile "pkg.pb"]; GlobalFiles := Sample.files |}
             Sample.setup).
    reflexivity.
Defined.

(** When [main] gets past its set-up, [make] has returned the capacity of
    the queue it holds. *)
Lemma main_init_made_chan (env : Env) (fl : Flags) (w w' : World) (setup : Setup) :
  main_init env fl w = (Return setup, w') →
  make_chan env (wrap_int (receiverNum fl * 2)) = Return (dataList_cap setup).
Proof.
  unfold main_init, mbind, M_bind, lift, panic, mret, M_ret.
  destruct (main_hasDataField _ _) as [[|]|]; cbn; try discriminate.
  destruct (registerPbFile env (pbFile fl) w) as [[[err|]|p] w1]; cbn; try discriminate.
  destruct (receiverNum fl <=? 0); [discriminate|].
  destruct (make_chan env (wrap_int (receiverNum fl * 2))) as [cap|p]; cbn; [|discriminate].
  intros Hret. f_equal.
  repeat case_bool_decide; cbn in Hret; try discriminate;
    repeat (match type of Hret with
            | context [FileWriter_OpenFile ?e ?fw ?n ?w] =>
                destruct (FileWriter_OpenFile e fw n w) as [[[[?|] ?]|?] ?]; cbn in Hret
            end); try discriminate; by injection Hret as <- <-.
Qed.

(** C7 as stated fails: [2^62] is a positive worker count, but
    [receiverNum*2] wraps around to [-2^63], for which [make] panics: in
    no environment and with no other settings does [main] get a queue. *)
Lemma main_init_queue_capacity_wraps :
  ¬ (∀ W : Z, 0 < W <= max_int →
       ∃ (env : Env) (fl : Flags) (w w' : World) (setup : Setup),
         receiverNum fl = W ∧
         main_init env fl w = (Return setup, w') ∧
         dataList_cap setup = 2 * W).
Proof.
  intros H.
  destruct (H (2 ^ 62)) as (env & fl & w & w' & setup & HW & Hret & _).
  { unfold max_int. lia. }
  apply main_init_made_chan in Hret.
  rewrite HW, make_chan_overflow in Hret; [discriminate|].
  unfold max_int. lia.
Qed.

(** ** convertToMap and unmarshalProtoData *)

Lemma convertToMap_list_app (v : list Value) (acc : list GoAny) :
  convertToMap_list v acc = acc ++ (Interface <$> v).
Proof.
  revert acc. induction v as [|x v IH]; intros acc; cbn.
  - by rewrite app_nil_r.
  - rewrite IH. by rewrite <- app_assoc.
Qed.

Lemma convertToMap_fields_foldl (fields : list FieldDescriptor) (msg : Message)
    (result : gmap string GoAny) :
  (∀ f, f ∈ fields → IsList f = true → Has msg f = true → ∃ l, Get msg f = VList l) →
  convertToMap_fields fields msg result = Return (foldl (store_field msg) result fields).
Proof.
  revert result. induction fields as [|f rest IH]; intros result Hty; [done|].
  cbn. unfold store_field at 2, field_value.
  assert (∀ g, g ∈ rest → IsList g = true → Has msg g = true → ∃ l, Get msg g = VList l)
    as Hrest by (intros g Hg; apply Hty; by apply list_elem_of_further).
  destruct (Has msg f) eqn:Hhas; cbn; [|by apply IH].
  destruct (IsList f) eqn:Hlist; cbn; [|by apply IH].
  destruct (Hty f (list_elem_of_here _ _) Hlist Hhas) as [l ->]. cbn.
  rewrite convertToMap_list_app. cbn. by apply IH.
Qed.

Lemma store_fields_lookup_other (msg : Message) (fields : list FieldDescriptor)
    (result : gmap string GoAny) (k : string) :
  (∀ f, f ∈ fields → Has msg f = true → Name f ≠ k) →
  foldl (store_field msg) result fields !! k = result !! k.
Proof.
  revert result. induction fields as [|f rest IH]; intros result Hk; [done|].
  cbn. rewrite IH by (intros g Hg; apply Hk; by apply list_elem_of_further).
  unfold store_field. destruct (Has msg f) eqn:Hhas; [|done].
  apply lookup_insert_ne, Hk; [apply list_elem_of_here|done].
Qed.

Lemma store_fields_lookup_set (msg : Message) (fields : list FieldDescriptor)
    (result : gmap string GoAny) (f : FieldDescriptor) :
  NoDup (Name <$> fields) → f ∈ fields → Has msg f = true →
  foldl (store_field msg) result fields !! Name f = Some (field_value msg f).
Proof.
  revert result. induction fields as [|g rest IH]; intros result Hnd Hin Hhas.
  - by apply elem_of_nil in Hin.
  - cbn in Hnd. apply NoDup_cons in Hnd as [Hg Hnd]. cbn.
    apply elem_of_cons in Hin as [<- | Hin].
    + rewrite store_fields_lookup_other.
      * unfold store_field. rewrite Hhas. apply lookup_insert_eq.
      * intros h Hh _ Heq. apply Hg. rewrite <- Heq. by apply list_elem_of_fmap_2.
    + by apply IH.
Qed.


(** What [unmarshalProtoData] returns for a registered message type and a
    payload the library accepts. *)
Lemma unmarshalProtoData_flattens (env : Env) (files : Files) (b : list byte)
    (msgName : string) (d : MessageDescriptor) (msg : Message) :
  Files_FindDescriptorByName env files msgName = inr (DMessage d) →
  proto_Unmarshal env b d = inr msg →
  well_typed d msg →
  unmarshalProtoData env files b msgName =
    Return (inr (foldl (store_field msg) ∅ (Fields d))).
Proof.
  intros Hfind Hun Hty. unfold unmarshalProtoData. rewrite Hfind. cbn. rewrite Hun.
  unfold convertToMap. by rewrite convertToMap_fields_foldl.
Qed.


(** C1, as the code has it.  For a registered message type and a valid
    encoding of it, a singular field of message kind that is set is stored
    as the nested message object the reflection interface returns;
    [convertToMap] does not descend into it. *)
Theorem unmarshalProtoData_nested_message (env : Env) (files : Files) (b : list byte)
    (msgName : string) (d : MessageDescriptor) (msg inner : Message) (f : FieldDescriptor) :
  Files_FindDescriptorByName env files msgName = inr (DMessage d) →
  proto_Unmarshal env b d = inr msg →
  NoDup (Name <$> Fields d) →
  well_typed d msg →
  f ∈ Fields d → IsList f = false → Has msg f = true → Get msg f = VMessage inner →
  ∃ result,
    unmarshalProtoData env files b msgName = Return (inr result) ∧
    result !! Name f = Some (AMessage inner).
Proof.
  intros Hfind Hun Hnd Hty Hf Hlist Hhas Hget.
  eexists. split; [by apply unmarshalProtoData_flattens|].
  rewrite store_fields_lookup_set by done.
  unfold field_value. by rewrite Hlist, Hget.
Qed.

Lemma Sample_Team_well_typed : well_typed Sample.Team Sample.team.
Proof.
  intros f Hf. apply list_elem_of_In in Hf. cbn in Hf.
  destruct Hf as [<-|[<-|[<-|[]]]]; cbn; intros; try discriminate; eauto.
Defined.




Lemma unmarshalProtoData_nested_message_witness :
  ∃ result,
    unmarshalProtoData Sample.env Sample.files Sample.team_bytes "pkg.Team"
      = Return (inr result) ∧
    result !! "owner" = Some (AMessage Sample.alice).
Proof.
  apply (unmarshalProtoData_nested_message Sample.env Sample.files Sample.team_bytes
           "pkg.Team" Sample.Team Sample.team Sample.alice Sample.owner_field).
  - reflexivity.
  - reflexivity.
  - apply (bool_decide_unpack _). vm_compute. exact I.
  - exact Sample_Team_well_typed.
  - apply (bool_decide_unpack _). vm_compute. exact I.
  - reflexivity.
  - reflexivity.
  - reflexivity.
Defined.

(** C1 as stated fails: the [owner] field of the sample [pkg.Team] payload
    is a singular field of message kind, and what is stored for it is the
    message object, not a mapping from field name to value. *)
Lemma unmarshalProtoData_nested_not_flattened :
  ¬ (∀ (env : Env) (files : Files) (b : list byte) (msgName : string)
       (d : MessageDescriptor) (msg : Message) (f : FieldDescriptor)
       (result : gmap string GoAny),
       Files_FindDescriptorByName env files msgName = inr (DMessage d) →
       proto_Unmarshal env b d = inr msg →
       f ∈ Fields d → FieldKind f = MessageKind → IsList f = false → Has msg f = true →
       unmarshalProtoData env files b msgName = Return (inr result) →
       ∃ m, result !! Name f = Some (AStringMap m)).
Proof.
  intros H.
  edestruct (H Sample.env Sample.files Sample.team_bytes "pkg.Team" Sample.Team
               Sample.team Sample.owner_field) as [m Hm].
  - reflexivity.
  - reflexivity.
  - apply (bool_decide_unpack _). vm_compute. exact I.
  - reflexivity.
  - reflexivity.
  - reflexivity.
  - vm_compute. reflexivity.
  - vm_compute in Hm. discriminate.
Qed.

(** ** ReadData *)

Lemma wrap_uint32_succ (c : Z) : wrap_uint32 (wrap_uint32 c + 1) = wrap_uint32 (c + 1).
Proof. unfold wrap_uint32. by rewrite Z.add_mod_idemp_l. Qed.

Lemma ReadData_assign_returns (fields records : list string) (k : nat)
    (m : gmap string GoAny) :
  (k + length fields ≤ length records)%nat →
  ∃ m', ReadData_assign fields k records m = Return m'.
Proof.
  revert k m. induction fields as [|v rest IH]; intros k m Hlen; cbn; [eauto|].
  cbn in Hlen. unfold index.
  destruct (lookup_lt_is_Some_2 records k ltac:(lia)) as [r ->]. cbn.
  apply IH. lia.
Qed.

Lemma ReadData_iter_enough (fields : list string)
    (read : option (list string) * option error) (count : Z) :
  enough_columns fields read →
  ∃ m, ReadData_iter read fields count =
         (IterSend {| line := wrap_uint32 (count + 1); data := m |}, wrap_uint32 (count + 1)).
Proof.
  intros (records & Hrec & Herr & Hlen). destruct read as [r e]. cbn in Hrec, Herr. subst r.
  destruct (ReadData_assign_returns fields records 0 ∅ ltac:(lia)) as [m Hm].
  exists m. unfold ReadData_iter.
  rewrite (proj2 (Nat.ltb_ge _ _)) by lia. rewrite Hm.
  destruct e as [[]|]; done.
Qed.

Lemma ReadData_iter_short (fields records : list string) (err : option error) (count : Z) :
  err ≠ Some EOF → (length records < length fields)%nat →
  ReadData_iter (Some records, err) fields count =
    (IterReturn (ErrNotEnoughFields (wrap_uint32 (count + 1))), wrap_uint32 (count + 1)).
Proof.
  intros Herr Hlen. unfold ReadData_iter.
  rewrite (proj2 (Nat.ltb_lt _ _)) by lia.
  destruct err as [[]|]; done.
Qed.

Lemma ReadData_loop_acc (reader : Reader) (fields : list string) (count : Z)
    (dataList : list Data) :
  ReadData_loop reader fields count dataList =
    (dataList ++ fst (ReadData_loop reader fields count []),
     snd (ReadData_loop reader fields count [])).
Proof.
  revert count dataList. induction reader as [|read reader IH]; intros count dataList; cbn.
  - by rewrite app_nil_r.
  - destruct (ReadData_iter read fields count) as [[| e | d | p] count']; cbn;
      rewrite ?app_nil_r; try done.
    rewrite (IH count' (dataList ++ [d])), (IH count' [d]). cbn.
    by rewrite <- app_assoc.
Qed.

(** Rows with enough columns are all sent; the loop goes on after them
    with the counter advanced by their number, modulo [2^32]. *)
Lemma ReadData_loop_enough (fields : list string) (pre rest : Reader) (count : Z)
    (dataList : list Data) :
  Forall (enough_columns fields) pre →
  ∃ sent, length sent = length pre ∧
    ∀ rest, ReadData_loop (pre ++ rest) fields (wrap_uint32 count) dataList =
            ReadData_loop rest fields (wrap_uint32 (count + Z.of_nat (length pre)))
              (dataList ++ sent).
Proof.
  intros Hpre. revert count dataList.
  induction Hpre as [|read pre Hread Hpre IH]; intros count dataList.
  - exists []. split; [done|]. intros rest'. cbn. by rewrite Z.add_0_r, app_nil_r.
  - destruct (ReadData_iter_enough fields read (wrap_uint32 count) Hread) as [m Hm].
    rewrite wrap_uint32_succ in Hm.
    destruct (IH (count + 1) (dataList ++ [{| line := wrap_uint32 (count + 1); data := m |}]))
      as (sent & Hlen & Hsent).
    exists ({| line := wrap_uint32 (count + 1); data := m |} :: sent).
    split; [cbn; lia|]. intros rest'. cbn [app ReadData_loop]. rewrite Hm.
    rewrite Hsent. rewrite <- app_assoc. cbn [app length].
    do 2 f_equal. lia.
Qed.

(** [ReadData] stops at the first row with too few columns. *)
Lemma ReadData_stops_at_short_row (fields : list string) (pre post : Reader)
    (records : list string) (err : option error) :
  Forall (enough_columns fields) pre →
  err ≠ Some EOF →
  (length records < length fields)%nat →
  ReadData (pre ++ (Some records, err) :: post) fields =
    (fst (ReadData pre fields),
     Return (Some (ErrNotEnoughFields (wrap_uint32 (Z.of_nat (length pre) + 1))))) ∧
  length (fst (ReadData pre fields)) = length pre.
Proof.
  intros Hpre Herr Hshort. unfold ReadData.
  destruct (ReadData_loop_enough fields pre [] 0 [] Hpre) as (sent & Hlen & Hsent).
  change 0 with (wrap_uint32 0) at 1 2 3.
  rewrite (Hsent ((Some records, err) :: post)).
  pose proof (Hsent []) as Hnil. rewrite app_nil_r in Hnil. rewrite Hnil.
  cbn [ReadData_loop app fst]. rewrite ReadData_iter_short by done.
  rewrite wrap_uint32_succ. split; [|done].
  by rewrite Z.add_0_l.
Qed.

(** C6, as the code has it.  When a row has fewer columns than there are
    field names, and the rows before it have enough, [ReadData] returns the
    RecordError citing that row's 1-based position as the 32-bit counter
    holds it (the position modulo [2^32]); the records sent are those of
    the rows before it, one for each, and nothing of that row or the rows
    after it. *)
Theorem ReadData_short_row (fields : list string) (pre post : Reader)
    (records : list string) (err : option error) :
  Forall (enough_columns fields) pre →
  err ≠ Some EOF →
  (length records < length fields)%nat →
  ReadData (pre ++ (Some records, err) :: post) fields =
    (fst (ReadData pre fields),
     Return (Some (ErrNotEnoughFields (wrap_uint32 (Z.of_nat (length pre) + 1))))) ∧
  length (fst (ReadData pre fields)) = length pre.
Proof. apply ReadData_stops_at_short_row. Qed.

Lemma Sample_row_enough (id : string) : enough_columns ["id"; "data"] (Sample.row id).
Proof. exists [id; Sample.alice_hex]. cbn. split; [done|]. split; [done|lia]. Defined.

Lemma ReadData_short_row_witness :
  ReadData ([Sample.row "1"] ++ (Some ["2"], None) :: [Sample.row "3"]) ["id"; "data"] =
    (fst (ReadData [Sample.row "1"] ["id"; "data"]),
     Return (Some (ErrNotEnoughFields (wrap_uint32 (Z.of_nat 1 + 1))))) ∧
  length (fst (ReadData [Sample.row "1"] ["id"; "data"])) = 1%nat.
Proof.
  apply (ReadData_short_row ["id"; "data"] [Sample.row "1"] [Sample.row "3"] ["2"] None).
  - constructor; [apply Sample_row_enough|constructor].
  - discriminate.
  - cbn. lia.
Defined.

(** C6 as stated fails: after [2^32 - 1] good rows the counter wraps, and
    the short row at position [2^32] is reported as line 0. *)
Lemma ReadData_line_number_wraps :
  ¬ (∀ (fields : list string) (pre post : Reader) (records : list string)
       (err : option error),
       Forall (enough_columns fields) pre →
       err ≠ Some EOF →
       (length records < length fields)%nat →
       snd (ReadData (pre ++ (Some records, err) :: post) fields) =
         Return (Some (ErrNotEnoughFields (Z.of_nat (length pre) + 1)))).
Proof.
  intros H.
  assert (∃ n, Z.of_nat n = 2 ^ 32 - 1) as [n Hn].
  { exists (Z.to_nat (2 ^ 32 - 1)). apply Z2Nat.id. lia. }
  assert (Forall (enough_columns ["id"; "data"]) (replicate n (Sample.row "1"))) as Hpre.
  { apply Forall_replicate, Sample_row_enough. }
  assert (None ≠ Some EOF) as Herr by discriminate.
  assert (length ["2"] < length ["id"; "data"])%nat as Hshort by (cbn; lia).
  specialize (H ["id"; "data"] (replicate n (Sample.row "1")) [] ["2"] None Hpre Herr Hshort).
  destruct (ReadData_stops_at_short_row ["id"; "data"] (replicate n (Sample.row "1")) []
              ["2"] None Hpre Herr Hshort) as [Hrun _].
  rewrite Hrun in H. cbn [snd] in H. rewrite length_replicate, Hn in H.
  injection H as H. unfold wrap_uint32 in H.
  replace (2 ^ 32 - 1 + 1) with (2 ^ 32) in H by lia.
  rewrite Z.mod_same in H by lia. lia.
Qed.

(** ** The pipeline when [main] runs ReadData itself *)

Lemma reachable_invariant (cfg : Config) (I : Pipeline → Prop) (s0 s : Pipeline) :
  I s0 → (∀ s s', I s → step cfg s s' → I s') → reachable cfg s0 s → I s.
Proof.
  intros H0 Hstep Hr. revert s Hr. apply rtc_ind_r; [done|].
  intros s1 s2 _ Hs IH. by eapply Hstep.
Qed.

Lemma drop_cons_inv {A} (l : list A) (k : nat) (x : A) (r : list A) :
  drop k l = x :: r → l !! k = Some x ∧ drop (S k) l = r.
Proof.
  revert k. induction l as [|y l IH]; intros k H.
  - by rewrite drop_nil in H.
  - destruct k as [|k]; cbn in *.
    + injection H as -> ->. by rewrite drop_0.
    + by apply IH.
Qed.

Section inline.
Variable cfg : Config.
Variable rows : Reader.
Hypothesis Hmode : producer_is_goroutine cfg = false.
Hypothesis Hrows : Forall (enough_columns (fields_of (cfg_setup cfg))) rows.
Hypothesis Hcap : 0 <= dataList_cap (cfg_setup cfg) < Z.of_nat (length rows).

Lemma inline_inv_start : inline_inv cfg rows (pipeline_start cfg rows).
Proof using Hcap.
  unfold inline_inv, pipeline_start. cbn. repeat split; try done; [lia|].
  left. eexists. by rewrite drop_0.
Qed.

Lemma inline_inv_step (s s' : Pipeline) :
  inline_inv cfg rows s → step cfg s s' → inline_inv cfg rows s'.
Proof using Hmode Hrows Hcap.
  intros (Hcr & Hpc & Hws & Hcl & Hw & Hout & Hq & Hprod) Hstep.
  inversion Hstep as
    [s1 read reader count Hal Hp | s1 count Hal Hp | s1 d reader count Hal Hp Hlt
    | s1 Hal Hp | s1 i Hal Hpast Hm Hi | s1 i Hal Hpast Hm Hi | s1 Hal Hm Hall
    | s1 k d q Hal Hk Hqueue | s1 k Hal Hk Hqueue Hclosed | s1 k d Hal Hk];
    subst s1; try subst s'.
  - destruct Hprod as [[c Hc]|(d & c & Hc)]; rewrite Hc in Hp; [|discriminate].
    injection Hp as Hdrop ->. apply drop_cons_inv in Hdrop as [Hread Hrest].
    assert (enough_columns (fields_of (cfg_setup cfg)) read) as Hen.
    { eapply Forall_forall; [exact Hrows|]. apply list_elem_of_lookup. eauto. }
    destruct (ReadData_iter_enough _ _ count Hen) as [m ->].
    unfold inline_inv. cbn. repeat split; try done.
    right. do 2 eexists. by rewrite Hrest.
  - destruct Hprod as [[c Hc]|(d & c & Hc)]; rewrite Hc in Hp; [|discriminate].
    injection Hp as Hdrop _. apply (f_equal length) in Hdrop.
    rewrite length_drop in Hdrop. cbn in Hdrop. lia.
  - destruct Hprod as [[c Hc]|(d' & c & Hc)]; rewrite Hc in Hp; [discriminate|].
    injection Hp as -> <- ->.
    unfold inline_inv. cbn. rewrite length_app. cbn.
    repeat split; try done; [lia|].
    left. eexists. by rewrite Nat.add_1_r.
  - destruct Hprod as [[c Hc]|(d & c & Hc)]; rewrite Hc in Hp; discriminate.
  - destruct Hpast as [Hg|Hd]; [congruence|].
    destruct Hprod as [[c Hc]|(d & c & Hc)]; rewrite Hc in Hd; discriminate.
  - destruct Hpast as [Hg|Hd]; [congruence|].
    destruct Hprod as [[c Hc]|(d & c & Hc)]; rewrite Hc in Hd; discriminate.
  - congruence.
  - rewrite Hws in Hk. by rewrite lookup_nil in Hk.
  - rewrite Hws in Hk. by rewrite lookup_nil in Hk.
  - rewrite Hws in Hk. by rewrite lookup_nil in Hk.
Qed.

Lemma inline_inv_reachable (s : Pipeline) :
  reachable cfg (pipeline_start cfg rows) s → inline_inv cfg rows s.
Proof using Hmode Hrows Hcap.
  apply reachable_invariant; [apply inline_inv_start|apply inline_inv_step].
Qed.

(** The producer gets as far as filling the queue. *)
Lemma inline_fills_queue (k : nat) :
  Z.of_nat k <= dataList_cap (cfg_setup cfg) →
  ∃ s c, reachable cfg (pipeline_start cfg rows) s ∧ length (queue s) = k ∧
         producer s = PRead (drop k rows) c.
Proof using Hmode Hrows Hcap.
  induction k as [|k IH]; intros Hk.
  - exists (pipeline_start cfg rows), 0. split; [apply rtc_refl|]. by rewrite drop_0.
  - destruct IH as (s & c & Hr & Hlen & Hp); [lia|].
    pose proof (inline_inv_reachable s Hr) as (Hcr & Hpc & _).
    assert (alive s) as Hal by (split; congruence).
    destruct (drop k rows) as [|read reader] eqn:Hdrop.
    { apply (f_equal length) in Hdrop. rewrite length_drop in Hdrop. cbn in Hdrop. lia. }
    apply drop_cons_inv in Hdrop as [Hread Hrest].
    assert (enough_columns (fields_of (cfg_setup cfg)) read) as Hen.
    { eapply Forall_forall; [exact Hrows|]. apply list_elem_of_lookup. eauto. }
    destruct (ReadData_iter_enough _ _ c Hen) as [m Hm].
    pose proof (step_read cfg s read reader c Hal Hp) as Hs1. rewrite Hm in Hs1.
    set (s1 := set_producer s (PSend {| line := wrap_uint32 (c + 1); data := m |}
                                 reader (wrap_uint32 (c + 1)))) in Hs1.
    assert (alive s1) as Hal1 by done.
    pose proof (step_send cfg s1 _ reader _ Hal1 eq_refl ltac:(cbn; lia)) as Hs2.
    eexists _, _. split; [|split].
    + eapply rtc_r; [eapply rtc_r; [exact Hr|exact Hs1]|exact Hs2].
    + cbn. rewrite length_app. cbn. lia.
    + cbn. by rewrite Hrest.
Qed.

(** With more rows than the queue can take, [main] blocks in [ReadData]
    before any worker exists: no run writes anything or ends, and one
    run ends in a deadlock. *)
Lemma inline_blocks :
  (∀ s, reachable cfg (pipeline_start cfg rows) s →
        alive s ∧ workers s = [] ∧ writer s = writer_of (cfg_setup cfg) ∧ stdout s = []) ∧
  (∃ s, reachable cfg (pipeline_start cfg rows) s ∧ deadlocked cfg s).
Proof using Hmode Hrows Hcap.
  split.
  - intros s Hr. destruct (inline_inv_reachable s Hr) as (? & ? & ? & ? & ? & ? & _).
    repeat split; congruence.
  - destruct (inline_fills_queue (Z.to_nat (dataList_cap (cfg_setup cfg))))
      as (s & c & Hr & Hlen & Hp); [lia|].
    pose proof (inline_inv_reachable s Hr) as (Hcr & Hpc & _).
    assert (alive s) as Hal by (split; congruence).
    destruct (drop (Z.to_nat (dataList_cap (cfg_setup cfg))) rows)
      as [|read reader] eqn:Hdrop.
    { apply (f_equal length) in Hdrop. rewrite length_drop in Hdrop. cbn in Hdrop. lia. }
    apply drop_cons_inv in Hdrop as [Hread Hrest].
    assert (enough_columns (fields_of (cfg_setup cfg)) read) as Hen.
    { eapply Forall_forall; [exact Hrows|]. apply list_elem_of_lookup. eauto. }
    destruct (ReadData_iter_enough _ _ c Hen) as [m Hm].
    pose proof (step_read cfg s read reader c Hal Hp) as Hs1. rewrite Hm in Hs1.
    eexists. split; [eapply rtc_r; [exact Hr|exact Hs1]|].
    pose proof (inline_inv_reachable _ (rtc_r _ _ _ Hr Hs1))
      as (Hcr' & Hpc' & Hws' & _).
    split; [split; congruence|].
    intros s' Hstep.
    inversion Hstep as
      [s1 read' reader' count Hal' Hp' | s1 count Hal' Hp' | s1 d reader' count Hal' Hp' Hlt
      | s1 Hal' Hp' | s1 i Hal' Hpast Hm' Hi | s1 i Hal' Hpast Hm' Hi | s1 Hal' Hm' Hall
      | s1 k d q Hal' Hk Hqueue | s1 k Hal' Hk Hqueue Hclosed | s1 k d Hal' Hk];
      subst s1; cbn in *; try discriminate.
    + lia.
    + destruct Hpast as [Hg|Hd]; [congruence|discriminate].
    + destruct Hpast as [Hg|Hd]; [congruence|discriminate].
    + congruence.
    + rewrite Hws' in Hk. by rewrite lookup_nil in Hk.
    + rewrite Hws' in Hk. by rewrite lookup_nil in Hk.
    + rewrite Hws' in Hk. by rewrite lookup_nil in Hk.
Qed.

End inline.

(** ** The pipeline when the producer is a goroutine *)

Lemma list_split_at {A} (l : list A) (k : nat) (x : A) :
  l !! k = Some x →
  l = take k l ++ x :: drop (S k) l ∧
  ∀ y, <[k := y]> l = take k l ++ y :: drop (S k) l.
Proof.
  intros Hk. split; [by rewrite take_drop_middle|].
  intros y. apply insert_take_drop. by eapply lookup_lt_Some.
Qed.

Lemma held_at (ws : list Worker) (k : nat) (w : Worker) :
  ws !! k = Some w →
  ∃ h1 h2, held ws = h1 ++ held_by w ++ h2 ∧
           ∀ w', held (<[k := w']> ws) = h1 ++ held_by w' ++ h2.
Proof.
  intros Hk. destruct (list_split_at ws k w Hk) as [Hws Hins].
  exists (held (take k ws)), (held (drop (S k) ws)). split.
  - rewrite Hws at 1. unfold held. by rewrite bind_app, bind_cons.
  - intros w'. rewrite Hins. unfold held. by rewrite bind_app, bind_cons.
Qed.

Lemma elem_of_insert_inv {A} (l : list A) (k : nat) (x y : A) :
  x ∈ <[k := y]> l → x = y ∨ x ∈ l.
Proof.
  intros Hx. apply list_elem_of_lookup in Hx as [i Hi].
  destruct (decide (i = k)) as [->|Hne].
  - destruct (decide (k < length l)%nat) as [Hlt|Hge].
    + rewrite list_lookup_insert_eq in Hi by done. left. congruence.
    + rewrite list_insert_ge in Hi by lia. right. apply list_elem_of_lookup. eauto.
  - rewrite list_lookup_insert_ne in Hi by done. right. apply list_elem_of_lookup. eauto.
Qed.

Lemma pending_read (fields : list string) (read : option (list string) * option error)
    (reader : Reader) (count count' : Z) (d : Data) :
  ReadData_iter read fields count = (IterSend d, count') →
  pending fields (PRead (read :: reader) count) = d :: pending fields (PRead reader count').
Proof.
  intros Hit. cbn. rewrite Hit. by rewrite ReadData_loop_acc.
Qed.

Lemma lines_snoc (cfg : Config) (ds : list Data) (d : Data) :
  lines cfg (ds ++ [d]) = lines cfg ds ++ text_of cfg d ++ [newline].
Proof. unfold lines. rewrite bind_app. cbn. by rewrite app_nil_r. Qed.

(** A write on a faultless writer appends the line and stays faultless. *)
Lemma Writer_Write_faultless (w : Writer) (out text : list byte) :
  faultless w →
  ∃ w' out', Writer_Write w out text = (None, w', out') ∧ faultless w' ∧
             output_of w' out' = output_of w out ++ text ++ [newline].
Proof.
  destruct w as [|[mu [f|]]]; cbn.
  - intros _. by eexists _, _.
  - intros (f' & Hfile & Hf). injection Hfile as <-.
    unfold FileWriter_Write, os_File_Write. cbn.
    rewrite Hf. cbn. eexists _, _. split; [done|]. split; [cbn; eauto|].
    cbn. symmetry. apply app_assoc.
  - intros (f' & Hfile & _). discriminate.
Qed.

Lemma sum_list_with_at {A} (f : A → nat) (l : list A) (k : nat) (x : A) :
  l !! k = Some x →
  ∃ a b, sum_list_with f l = (a + f x + b)%nat ∧
         ∀ y, sum_list_with f (<[k := y]> l) = (a + f y + b)%nat.
Proof.
  intros Hk. destruct (list_split_at l k x Hk) as [Hl Hins].
  exists (sum_list_with f (take k l)), (sum_list_with f (drop (S k) l)). split.
  - rewrite Hl at 1. rewrite sum_list_with_app. cbn. lia.
  - intros y. rewrite Hins, sum_list_with_app. cbn. lia.
Qed.

Lemma held_all_done (ws : list Worker) : Forall (λ w, w = WDone) ws → held ws = [].
Proof. induction 1 as [|w ws -> _ IH]; [done|]. unfold held in *. cbn. exact IH. Qed.

Lemma workers_done_or_not (ws : list Worker) :
  Forall (λ w, w = WDone) ws ∨ ∃ k w, ws !! k = Some w ∧ w ≠ WDone.
Proof.
  induction ws as [|w ws [IH|(k & w' & Hk & Hw')]].
  - left. constructor.
  - destruct w as [|d|].
    + right. by exists 0%nat, WRange.
    + right. by exists 0%nat, (WBody d).
    + left. by constructor.
  - right. by exists (S k), w'.
Qed.

(** Every step uses up some of the measure: runs are finite. *)
Lemma step_measure (cfg : Config) (s s' : Pipeline) :
  step cfg s s' → (measure cfg s' < measure cfg s)%nat.
Proof.
  intros Hstep.
  inversion Hstep as
    [s1 read reader count Hal Hp | s1 count Hal Hp | s1 d reader count Hal Hp Hlt
    | s1 Hal Hp | s1 i Hal Hpast Hm Hi | s1 i Hal Hpast Hm Hi | s1 Hal Hm Hall
    | s1 k d q Hal Hk Hqueue | s1 k Hal Hk Hqueue Hclosed | s1 k d Hal Hk];
    subst s1; try subst s'; destruct Hal as [Hcr Hne]; unfold measure.
  - destruct (ReadData_iter read _ count) as [[| e | d | p] count'];
      cbn; rewrite Hcr, ?Hp; cbn; destruct (main_pc s); try done; lia.
  - cbn. rewrite Hcr, Hp. lia.
  - cbn. rewrite Hcr, Hp, length_app. cbn. lia.
  - cbn. rewrite Hcr, Hp. destruct (main_pc s); try done; lia.
  - cbn. rewrite Hcr, Hm, sum_list_with_app. cbn. lia.
  - cbn. rewrite Hcr, Hm. lia.
  - cbn. rewrite Hcr, Hm. lia.
  - destruct (sum_list_with_at (λ w, match w with WRange => 1 | WBody _ => 2 | WDone => 0 end)%nat
                _ _ _ Hk) as (a & b & Hsum & Hsum').
    cbn. rewrite Hcr, Hsum, Hsum', Hqueue. cbn. lia.
  - destruct (sum_list_with_at (λ w, match w with WRange => 1 | WBody _ => 2 | WDone => 0 end)%nat
                _ _ _ Hk) as (a & b & Hsum & Hsum').
    cbn. rewrite Hcr, Hsum, Hsum', Hqueue. cbn. lia.
  - destruct (sum_list_with_at (λ w, match w with WRange => 1 | WBody _ => 2 | WDone => 0 end)%nat
                _ _ _ Hk) as (a & b & Hsum & Hsum').
    destruct (worker_text cfg d) as [text|p].
    + destruct (Writer_Write (writer s) (stdout s) text) as [[[err|] w] out];
        cbn; rewrite Hcr, ?Hsum, ?Hsum'; destruct (main_pc s); try done; lia.
    + cbn. rewrite Hcr. destruct (main_pc s); try done; lia.
Qed.

Ltac inv_split :=
  unfold goroutine_inv; cbn -[held lines pending];
  refine (conj _ (conj _ (conj _ (conj _ (conj _ (conj _ _)))))); try done.

Section goroutine.
Variable cfg : Config.
Variable rows : Reader.
Let fields := fields_of (cfg_setup cfg).
Let W := receiverNum (cfg_flags cfg).
Hypothesis Hmode : producer_is_goroutine cfg = true.
Hypothesis HW : 1 <= W.
Hypothesis Hcap : 1 <= dataList_cap (cfg_setup cfg).
Hypothesis Hrows : Forall (enough_columns fields) rows.
Hypothesis Hvalid : Forall (λ d, returned (worker_text cfg d)) (fst (ReadData rows fields)).
Hypothesis Hwriter : faultless (writer_of (cfg_setup cfg)).

Lemma goroutine_inv_start : goroutine_inv cfg rows (pipeline_start cfg rows).
Proof using HW Hrows Hwriter.
  unfold goroutine_inv, pipeline_start. cbn. split_and!; try done; try lia.
  - intros H. by apply elem_of_nil in H.
  - exists []. cbn. by rewrite app_nil_r.
Qed.

Lemma goroutine_inv_step (s s' : Pipeline) :
  goroutine_inv cfg rows s → step cfg s s' → goroutine_inv cfg rows s'.
Proof using Hvalid.
  intros (Hcr & Hfl & Hcl & Hrl & Hmain & Hdone & written & Hout & Hperm) Hstep.
  assert (main_pc s ≠ MainExit) as Hne by (inversion Hstep; by match goal with H : alive _ |- _ => destruct H end).
  inversion Hstep as
    [s1 read reader count Hal Hp | s1 count Hal Hp | s1 d reader count Hal Hp Hlt
    | s1 Hal Hp | s1 i Hal Hpast Hm Hi | s1 i Hal Hpast Hm Hi | s1 Hal Hm Hall
    | s1 k d q Hal Hk Hqueue | s1 k Hal Hk Hqueue Hclosed | s1 k d Hal Hk];
    subst s1; try subst s'; rewrite ?Hp, ?Hm in *; cbn in Hcl, Hrl, Hmain.
  - (* read *)
    apply Forall_cons in Hrl as [Hen Hrl].
    destruct (ReadData_iter_enough _ _ count Hen) as [m Hit]. rewrite Hit.
    inv_split.
    exists written. split; [done|].
    by rewrite (pending_read _ _ _ _ _ _ Hit) in Hperm.
  - (* end of input *)
    inv_split. by exists written.
  - (* send *)
    inv_split.
    + intros Hd. destruct (Hdone Hd) as [Hc _]. congruence.
    + exists written. split; [done|].
      cbn in Hperm. by rewrite <- (assoc_L (++)).
  - (* close *)
    inv_split.
    + intros Hd. split; [done|]. by destruct (Hdone Hd).
    + by exists written.
  - (* spawn *)
    inv_split.
    + rewrite length_app. cbn. lia.
    + intros Hd. apply elem_of_app in Hd as [Hd|Hd]; [by apply Hdone|].
      apply list_elem_of_singleton in Hd. discriminate.
    + exists written. split; [done|].
      unfold held. rewrite bind_app. cbn. by rewrite app_nil_r.
  - (* all workers started *)
    inv_split; [lia|]. by exists written.
  - (* wait *)
    inv_split. by exists written.
  - (* receive *)
    destruct (held_at _ _ _ Hk) as (h1 & h2 & Hh & Hh').
    inv_split.
    + rewrite length_insert. by destruct (main_pc s).
    + intros Hd. apply elem_of_insert_inv in Hd as [Hd|Hd]; [discriminate|].
      destruct (Hdone Hd) as [_ Hq]. congruence.
    + exists written. split; [done|].
      rewrite <- Hperm, Hh, Hh', Hqueue. cbn.
      apply Permutation_app_head. rewrite <- !(assoc_L (++)).
      apply Permutation_app_head.
      apply (Permutation_app_swap_app [d] h2 (q ++ _)).
  - (* range over a closed, empty channel *)
    destruct (held_at _ _ _ Hk) as (h1 & h2 & Hh & Hh').
    inv_split.
    + rewrite length_insert. by destruct (main_pc s).
    + exists written. split; [done|].
      rewrite <- Hperm, Hh, Hh', Hqueue. done.
  - (* loop body *)
    destruct (held_at _ _ _ Hk) as (h1 & h2 & Hh & Hh').
    assert (returned (worker_text cfg d)) as [text Htext].
    { apply (proj1 (Forall_forall _ _) Hvalid d). unfold fields. rewrite <- Hperm.
      rewrite Hh. cbn. apply elem_of_app. right. apply elem_of_app. left.
      apply elem_of_app. right. apply list_elem_of_here. }
    rewrite Htext.
    destruct (Writer_Write_faultless (writer s) (stdout s) text Hfl)
      as (w' & out' & -> & Hfl' & Hout').
    inv_split.
    + rewrite length_insert. by destruct (main_pc s).
    + intros Hd. apply elem_of_insert_inv in Hd as [Hd|Hd]; [discriminate|].
      by apply Hdone.
    + exists (written ++ [d]). split.
      * unfold output in *. cbn. rewrite Hout', Hout, lines_snoc.
        unfold text_of. rewrite Htext. by rewrite <- (assoc_L (++)).
      * rewrite <- Hperm, Hh, Hh'. cbn. rewrite <- !(assoc_L (++)).
        apply Permutation_app_head.
        apply (Permutation_app_swap_app [d] h1).
Qed.

Lemma goroutine_inv_reachable (s : Pipeline) :
  reachable cfg (pipeline_start cfg rows) s → goroutine_inv cfg rows s.
Proof using HW Hrows Hvalid Hwriter.
  apply reachable_invariant; [apply goroutine_inv_start|apply goroutine_inv_step].
Qed.

(** No deadlock: while the process runs, some goroutine can move. *)
Lemma goroutine_progress (s : Pipeline) :
  goroutine_inv cfg rows s → alive s → ∃ s', step cfg s s'.
Proof using Hmode Hcap.
  intros (Hcr & Hfl & Hcl & Hrl & Hmain & Hdone & _) Hal.
  assert (main_past_ReadData cfg s) as Hpast by (by left).
  destruct (main_pc s) as [i| |] eqn:Hpc; [| |by destruct Hal].
  - destruct (Z_lt_ge_dec i W) as [Hlt|Hge].
    + eexists. by eapply step_spawn.
    + eexists. eapply step_spawned; [done..|]. fold W. lia.
  - destruct (workers_done_or_not (workers s)) as [Hall|(k & w & Hk & Hw)].
    { eexists. by eapply step_wait. }
    destruct w as [|d|]; [| |done].
    + destruct (queue s) as [|d q] eqn:Hq; [|eexists; by eapply step_recv].
      destruct (closed s) eqn:Hclosed; [eexists; by eapply step_range_end|].
      destruct (producer s) as [[|read reader] c|d reader c| |] eqn:Hp; [| | | |done].
      * eexists. by eapply step_read_eof.
      * eexists. by eapply step_read.
      * eexists. eapply step_send; [done..|]. rewrite Hq. cbn. lia.
      * eexists. by eapply step_close.
    + eexists. by eapply step_body.
Qed.

(** Every run can be continued until [main] returns. *)
Lemma goroutine_completes (n : nat) (s : Pipeline) :
  (measure cfg s < n)%nat → goroutine_inv cfg rows s →
  ∃ s', reachable cfg s s' ∧ main_pc s' = MainExit.
Proof using Hmode Hcap Hvalid.
  revert s. induction n as [|n IH]; intros s Hn Hinv; [lia|].
  destruct (main_pc s) as [i| |] eqn:Hpc; [| |exists s; split; [apply rtc_refl|done]].
  all: destruct (goroutine_progress s Hinv) as [s1 Hs1];
    [split; [apply Hinv|congruence]|];
    pose proof (step_measure cfg s s1 Hs1);
    destruct (IH s1) as (s' & Hr & Hexit);
    [lia|by eapply goroutine_inv_step|];
    exists s'; split; [by eapply rtc_l|done].
Qed.

(** With a source file, valid rows and writes that do not fail: no run
    panics or deadlocks, every run is finite and can be continued until
    [main] returns, and when [main] returns the output is one line for
    each input row, in some order. *)
Lemma goroutine_pipeline_lines :
  (∀ s, reachable cfg (pipeline_start cfg rows) s →
        crashed s = None ∧
        (alive s → ∃ s', step cfg s s') ∧
        (main_pc s = MainExit →
         ∃ written, written ≡ₚ fst (ReadData rows fields) ∧
                    output s = output (pipeline_start cfg rows) ++ lines cfg written)) ∧
  (∃ s, reachable cfg (pipeline_start cfg rows) s ∧ main_pc s = MainExit) ∧
  length (fst (ReadData rows fields)) = length rows.
Proof using All.
  split; [|split].
  - intros s Hr. pose proof (goroutine_inv_reachable s Hr) as Hinv.
    split; [apply Hinv|]. split; [by apply goroutine_progress|].
    intros Hexit.
    destruct Hinv as (Hcr & Hfl & Hcl & Hrl & Hmain & Hdone & written & Hout & Hperm).
    rewrite Hexit in Hmain. destruct Hmain as [Hlen Hall].
    exists written. split; [|done].
    rewrite (held_all_done _ Hall) in Hperm.
    destruct (workers s) as [|w ws] eqn:Hws; [cbn in Hlen; lia|].
    destruct Hdone as [Hclosed Hq].
    { apply Forall_cons in Hall as [-> _]. apply list_elem_of_here. }
    rewrite Hq in Hperm. rewrite Hclosed in Hcl.
    destruct (producer s); try discriminate. cbn in Hperm.
    by rewrite !app_nil_r in Hperm.
  - apply (goroutine_completes (S (measure cfg (pipeline_start cfg rows)))); [lia|].
    apply goroutine_inv_start.
  - destruct (ReadData_loop_enough fields rows [] 0 [] Hrows) as (sent & Hlen & Hsent).
    specialize (Hsent []). rewrite app_nil_r in Hsent. unfold ReadData.
    change 0 with (wrap_uint32 0) at 1. rewrite Hsent. cbn. done.
Qed.

End goroutine.

(** ** The pipeline on the sample rows *)

Lemma Sample_three_rows_enough :
  Forall (enough_columns ["id"; "data"]) Sample.three_rows.
Proof. repeat constructor; apply Sample_row_enough. Qed.

Lemma Sample_three_rows_valid :
  Forall (λ d, returned (worker_text Sample.cfg d))
         (fst (ReadData Sample.three_rows ["id"; "data"])).
Proof.
  set (l := fst (ReadData Sample.three_rows ["id"; "data"])). vm_compute in l. subst l.
  repeat constructor; eexists; vm_compute; reflexivity.
Qed.

(** C8, at the failing input: one worker (a queue of two) and three valid
    rows given with [-data].  The rows are valid: [ReadData] alone accepts
    all three and a worker would serialize each.  But [main] runs
    [ReadData] before it starts any worker, so the third send blocks for
    good: no run writes a line or lets [main] return, and the run that
    fills the queue is deadlocked. *)
Theorem main_inline_three_rows_deadlock :
  main_reader Sample.env Sample.flags = inr Sample.three_rows ∧
  producer_is_goroutine Sample.cfg = false ∧
  snd (ReadData Sample.three_rows ["id"; "data"]) = Return None ∧
  length (fst (ReadData Sample.three_rows ["id"; "data"])) = 3%nat ∧
  Forall (λ d, returned (worker_text Sample.cfg d))
         (fst (ReadData Sample.three_rows ["id"; "data"])) ∧
  (∀ s, reachable Sample.cfg (pipeline_start Sample.cfg Sample.three_rows) s →
        main_pc s ≠ MainExit ∧ output s = []) ∧
  (∃ s, reachable Sample.cfg (pipeline_start Sample.cfg Sample.three_rows) s ∧
        deadlocked Sample.cfg s).
Proof.
  split; [reflexivity|]. split; [reflexivity|]. split; [reflexivity|].
  split; [reflexivity|]. split; [apply Sample_three_rows_valid|].
  destruct (inline_blocks Sample.cfg Sample.three_rows) as [Hall Hdead].
  - reflexivity.
  - apply Sample_three_rows_enough.
  - cbn. lia.
  - split; [|exact Hdead].
    intros s Hr. destruct (Hall s Hr) as ([_ Hne] & _ & Hw & Hout).
    split; [done|]. unfold output. by rewrite Hw, Hout.
Qed.

Lemma main_inline_three_rows_deadlock_witness :
  reachable Sample.cfg (pipeline_start Sample.cfg Sample.three_rows)
            (pipeline_start Sample.cfg Sample.three_rows) ∧
  main_pc (pipeline_start Sample.cfg Sample.three_rows) ≠ MainExit ∧
  output (pipeline_start Sample.cfg Sample.three_rows) = [].
Proof.
  split; [apply rtc_refl|].
  apply (proj1 (proj2 (proj2 (proj2 (proj2 (proj2 main_inline_three_rows_deadlock)))))).
  apply rtc_refl.
Defined.

(** The same three rows read from a source file: the producer is a
    goroutine, and every run ends with the three lines written. *)
Lemma main_file_three_rows_lines :
  main_reader Sample.env Sample.flags_file = inr Sample.three_rows ∧
  (∀ s, reachable Sample.cfg_file (pipeline_start Sample.cfg_file Sample.three_rows) s →
        crashed s = None ∧
        (alive s → ∃ s', step Sample.cfg_file s s') ∧
        (main_pc s = MainExit →
         ∃ written, written ≡ₚ fst (ReadData Sample.three_rows ["id"; "data"]) ∧
                    output s = lines Sample.cfg_file written)) ∧
  (∃ s, reachable Sample.cfg_file (pipeline_start Sample.cfg_file Sample.three_rows) s ∧
        main_pc s = MainExit).
Proof.
  split; [reflexivity|].
  destruct (goroutine_pipeline_lines Sample.cfg_file Sample.three_rows)
    as (Hall & Hexit & _).
  - reflexivity.
  - cbn. lia.
  - cbn. lia.
  - apply Sample_three_rows_enough.
  - apply Sample_three_rows_valid.
  - exact I.
  - split; [|exact Hexit]. exact Hall.
Qed.

(** * Further properties *)

(** ** The byte normalizer, in full *)

Lemma is_hex_digit_false (c : byte) : (15 <? reverseHexTable c) = true → is_hex_digit c = false.
Proof. unfold is_hex_digit. intros H. apply Z.ltb_lt in H. apply Z.leb_gt. lia. Qed.

Lemma is_hex_digit_true (c : byte) : (15 <? reverseHexTable c) = false → is_hex_digit c = true.
Proof. unfold is_hex_digit. intros H. apply Z.ltb_ge in H. apply Z.leb_le. lia. Qed.

(** [hex.Decode] with room in the destination, in full: what it leaves in
    the destination, when it reports an error and which. *)
Lemma hex_Decode_full (src : list byte) :
  ∀ (dst : list byte) (i : nat),
    (i + Nat.div2 (length src) ≤ length dst)%nat →
    ∃ dst' j err,
      hex_Decode dst i src = Return (dst', j, err) ∧
      length dst' = length dst ∧
      (∀ n, (n < i)%nat → dst' !! n = dst !! n) ∧
      (Forall (λ c, is_hex_digit c = true) src → Nat.Even (length src) → err = None) ∧
      (err = None →
       Forall (λ c, is_hex_digit c = true) src ∧ Nat.Even (length src) ∧
       j = (i + Nat.div2 (length src))%nat ∧
       ∀ k p q, src !! (2 * k)%nat = Some p → src !! (2 * k + 1)%nat = Some q →
                dst' !! (i + k)%nat = Some (hex_pair p q)) ∧
      (∀ e, err = Some e →
            (e = ErrLength ∧ Nat.Odd (length src)) ∨
            (∃ c, e = InvalidByteError c ∧ c ∈ src ∧ is_hex_digit c = false)).
Proof.
  induction src as [|p|p q rest IH] using list_pair_ind; intros dst i Hroom.
  - exists dst, i, None. cbn. split; [done|]. split; [done|]. split; [done|].
    split; [done|]. split; [|done].
    intros _. split; [constructor|]. split; [by exists 0%nat|]. split; [lia|].
    intros k p q Hp. by rewrite lookup_nil in Hp.
  - cbn. destruct (15 <? reverseHexTable p) eqn:Hp; eexists _, _, _;
      (split; [done|]; split; [done|]; split; [done|]; split; [|split; [done|]]).
    + intros _ [k Hk]. cbn in Hk. lia.
    + intros e [= <-]. right. exists p. split; [done|].
      split; [apply list_elem_of_here|by apply is_hex_digit_false].
    + intros _ [k Hk]. cbn in Hk. lia.
    + intros e [= <-]. left. split; [done|]. by exists 0%nat.
  - cbn [hex_Decode]. cbn [length Nat.div2] in *.
    assert (∀ n : nat, Nat.Even (S (S n)) ↔ Nat.Even n) as Heven.
    { intros n. split; intros [k Hk]; [exists (k - 1)%nat|exists (S k)]; lia. }
    assert (∀ n : nat, Nat.Odd (S (S n)) ↔ Nat.Odd n) as Hodd.
    { intros n. split; intros [k Hk]; [exists (k - 1)%nat|exists (S k)]; lia. }
    set (h := Nat.div2 (length rest)) in *. clearbody h.
    destruct (15 <? reverseHexTable p) eqn:Hp.
    { eexists _, _, _. split; [done|]. split; [done|]. split; [done|].
      split; [|split; [done|]].
      - intros Hhex _. apply Forall_cons in Hhex as [Hhex _].
        apply is_hex_digit_false in Hp. congruence.
      - intros e [= <-]. right. exists p. split; [done|].
        split; [apply list_elem_of_here|by apply is_hex_digit_false]. }
    destruct (15 <? reverseHexTable q) eqn:Hq.
    { eexists _, _, _. split; [done|]. split; [done|]. split; [done|].
      split; [|split; [done|]].
      - intros Hhex _. apply Forall_cons in Hhex as [_ Hhex].
        apply Forall_cons in Hhex as [Hhex _].
        apply is_hex_digit_false in Hq. congruence.
      - intros e [= <-]. right. exists q. split; [done|].
        split; [apply list_elem_of_further, list_elem_of_here|by apply is_hex_digit_false]. }
    rewrite (proj2 (Nat.ltb_lt i (length dst))) by lia.
    destruct (IH (<[i := hex_pair p q]> dst) (S i))
      as (dst' & j & err & Hrun & Hlen & Hpre & Hok & Hnone & Herr).
    { rewrite length_insert. lia. }
    exists dst', j, err. rewrite length_insert in Hlen.
    split; [exact Hrun|]. split; [done|]. split; [|split; [|split]].
    + intros n Hn. rewrite Hpre by lia. apply list_lookup_insert_ne. lia.
    + intros Hhex Hev. apply Forall_cons in Hhex as [_ Hhex].
      apply Forall_cons in Hhex as [_ Hhex]. apply Hok; [done|by apply Heven].
    + intros Hn. destruct (Hnone Hn) as (Hhex & Hev & Hj & Hval).
      split; [|split; [|split]].
      * repeat constructor; [by apply is_hex_digit_true..|done].
      * by apply Heven.
      * lia.
      * intros k a b Ha Hb. destruct k as [|k].
        -- cbn in Ha, Hb. injection Ha as <-. injection Hb as <-.
           rewrite Nat.add_0_r, Hpre by lia. apply list_lookup_insert_eq. lia.
        -- replace (2 * S k)%nat with (S (S (2 * k))) in Ha by lia.
           replace (2 * S k + 1)%nat with (S (S (2 * k + 1))) in Hb by lia.
           cbn in Ha, Hb. replace (i + S k)%nat with (S i + k)%nat by lia.
           by apply Hval.
    + intros e He. destruct (Herr e He) as [[-> Ho]|(c & -> & Hc & Hnot)].
      * left. split; [done|by apply Hodd].
      * right. exists c. split; [done|]. split; [|done].
        by apply list_elem_of_further, list_elem_of_further.
Qed.

Lemma has_marker_long (d0 d1 : byte) (rest : list byte) :
  has_marker (d0 :: d1 :: rest) =
    Return (byte_eqb byte_0 d0 && (byte_eqb byte_x d1 || byte_eqb byte_X d1)).
Proof. unfold has_marker. cbn -[byte_eqb]. by destruct (byte_eqb byte_0 d0). Qed.

(** What the normalizer does on a text of two characters or more. *)
Lemma parseData_binary_long (d0 d1 : byte) (rest : list byte) :
  let data := d0 :: d1 :: rest in
  let digits := payload_digits data in
  ∃ r, parseData_binary data = Return r ∧
       match r with
       | inr binary =>
           Forall (λ c, is_hex_digit c = true) digits ∧ Nat.Even (length digits) ∧
           length binary = Nat.div2 (length digits) ∧
           ∀ k p q, digits !! (2 * k)%nat = Some p → digits !! (2 * k + 1)%nat = Some q →
                    binary !! k = Some (hex_pair p q)
       | inl e =>
           ¬ (Forall (λ c, is_hex_digit c = true) digits ∧ Nat.Even (length digits)) ∧
           ∃ pos err b,
             e = ErrHexDecode pos err (Z.of_nat (length data)) b ∧
             last data = Some b ∧
             ((err = ErrLength ∧ Nat.Odd (length digits)) ∨
              (∃ c, err = InvalidByteError c ∧ c ∈ digits ∧ is_hex_digit c = false))
       end.
Proof.
  intros data digits. unfold parseData_binary. subst data. rewrite has_marker_long.
  unfold digits, payload_digits.
  unfold mbind, Outcome_bind. cbn [obind]. rewrite quot_2_div2.
  assert (∃ b, last (d0 :: d1 :: rest) = Some b ∧
               index (d0 :: d1 :: rest) (length (d0 :: d1 :: rest) - 1) = Return b)
    as (lb & Hlast & Hindex).
  { rewrite last_lookup. unfold index. cbn [length Nat.pred Nat.sub].
    rewrite ?Nat.sub_0_r.
    destruct (lookup_lt_is_Some_2 (d0 :: d1 :: rest) (S (length rest)) ltac:(cbn; lia))
      as [x Hx]. exists x. by rewrite Hx. }
  rewrite Hindex. clear Hindex.
  pose proof (hex_Decode_full rest) as Hdec.
  pose proof (hex_Decode_full (d0 :: d1 :: rest)) as Hdec2.
  destruct (byte_eqb byte_0 d0 && (byte_eqb byte_x d1 || byte_eqb byte_X d1)).
  - clear Hdec2. cbn [length Nat.div2 drop] in *. rewrite ?drop_0.
    set (h := Nat.div2 (length rest)) in *. clearbody h.
    destruct (make_bytes_length (Z.of_nat (S h) - 1)) as (b & -> & Hb); [lia|]. cbn [obind].
    destruct (Hdec b 0%nat) as (dst' & j & err & -> & Hlen & _ & Hok & Hnone & Herr); [lia|].
    destruct err as [e|]; cbn [obind].
    + eexists. split; [done|]. cbn beta iota. split.
      * intros [Hhex Hev]. by specialize (Hok Hhex Hev).
      * exists (Z.of_nat j), e, lb. split; [done|]. split; [done|]. by apply Herr.
    + eexists. split; [done|]. cbn beta iota.
      destruct (Hnone eq_refl) as (Hhex & Hev & _ & Hval).
      split; [done|]. split; [done|]. split; [lia|]. exact Hval.
  - clear Hdec. cbn [length Nat.div2 drop] in *.
    set (h := Nat.div2 (length rest)) in *. clearbody h.
    destruct (make_bytes_length (Z.of_nat (S h))) as (b & -> & Hb); [lia|]. cbn [obind].
    destruct (Hdec2 b 0%nat) as (dst' & j & err & -> & Hlen & _ & Hok & Hnone & Herr); [lia|].
    destruct err as [e|]; cbn [obind].
    + eexists. split; [done|]. cbn beta iota. split.
      * intros [Hhex Hev]. by specialize (Hok Hhex Hev).
      * exists (Z.of_nat j), e, lb. split; [done|]. split; [done|]. by apply Herr.
    + eexists. split; [done|]. cbn beta iota.
      destruct (Hnone eq_refl) as (Hhex & Hev & _ & Hval).
      split; [done|]. split; [done|]. split; [lia|]. exact Hval.
Qed.

Lemma parseData_binary_one (c : byte) :
  c ≠ byte_0 →
  ∃ err, parseData_binary [c] = Return (inl (ErrHexDecode 0 err 1 c)) ∧
         ((err = ErrLength ∧ is_hex_digit c = true) ∨
          (err = InvalidByteError c ∧ is_hex_digit c = false)).
Proof.
  intros Hc. unfold parseData_binary, has_marker. cbn -[byte_eqb].
  rewrite byte_eqb_false by done. cbn.
  destruct (15 <? reverseHexTable c) eqn:Hx; cbn; eexists; (split; [done|]).
  - right. split; [done|by apply is_hex_digit_false].
  - left. split; [done|by apply is_hex_digit_true].
Qed.

Lemma parseData_binary_panicked (data : list byte) :
  panicked (parseData_binary data) ↔ data = [] ∨ data = [byte_0].
Proof.
  split.
  - intros [p Hp]. destruct data as [|d0 [|d1 rest]].
    + by left.
    + destruct (decide (d0 = byte_0)) as [->|Hne]; [by right|].
      destruct (parseData_binary_one d0 Hne) as (err & Hrun & _). congruence.
    + destruct (parseData_binary_long d0 d1 rest) as (r & Hrun & _). congruence.
  - intros [-> | ->]; eexists; reflexivity.
Qed.

(** X1.  The normalizer panics on exactly two payload texts: the empty
    text and the text ["0"].  On every other text it returns. *)
Theorem parseData_binary_panics_iff (data : list byte) :
  panicked (parseData_binary data) ↔ data = [] ∨ data = [byte_0].
Proof. apply parseData_binary_panicked. Qed.

(** X2.  When the normalizer returns bytes, there is one byte for every
    two characters after the optional marker, and byte [k] is
    [(v(2k) << 4) | v(2k+1)] for the values of the two hex digits. *)
Theorem parseData_binary_decodes_pairs (data binary : list byte) :
  parseData_binary data = Return (inr binary) →
  length binary = Nat.div2 (length (payload_digits data)) ∧
  ∀ k p q, payload_digits data !! (2 * k)%nat = Some p →
           payload_digits data !! (2 * k + 1)%nat = Some q →
           binary !! k = Some (hex_pair p q).
Proof.
  intros Hrun. destruct data as [|d0 [|d1 rest]].
  - discriminate.
  - destruct (decide (d0 = byte_0)) as [->|Hne]; [discriminate|].
    destruct (parseData_binary_one d0 Hne) as (err & Hrun' & _). congruence.
  - destruct (parseData_binary_long d0 d1 rest) as (r & Hrun' & Hr).
    rewrite Hrun in Hrun'. injection Hrun' as <-.
    destruct Hr as (_ & _ & Hlen & Hval). done.
Qed.

Lemma parseData_binary_decodes_pairs_witness :
  length [Byte.xab] = Nat.div2 (length (payload_digits (bytes_of_string "0xAB"))) ∧
  ∀ k p q, payload_digits (bytes_of_string "0xAB") !! (2 * k)%nat = Some p →
           payload_digits (bytes_of_string "0xAB") !! (2 * k + 1)%nat = Some q →
           [Byte.xab] !! k = Some (hex_pair p q).
Proof.
  apply (parseData_binary_decodes_pairs (bytes_of_string "0xAB") [Byte.xab]).
  reflexivity.
Defined.

(** X3.  On a non-empty payload text the normalizer returns bytes exactly
    when what follows the optional marker is an even number of hex
    digits. *)
Theorem parseData_binary_succeeds_iff (data : list byte) :
  data ≠ [] →
  (∃ binary, parseData_binary data = Return (inr binary)) ↔
  Forall (λ c, is_hex_digit c = true) (payload_digits data) ∧
  Nat.Even (length (payload_digits data)).
Proof.
  intros Hne. destruct data as [|d0 [|d1 rest]]; [done| |].
  - split.
    + intros [binary Hrun]. exfalso.
      destruct (decide (d0 = byte_0)) as [->|Hd]; [discriminate|].
      destruct (parseData_binary_one d0 Hd) as (err & Hrun' & _). congruence.
    + intros [_ [k Hk]]. cbn in Hk. lia.
  - destruct (parseData_binary_long d0 d1 rest) as (r & Hrun & Hr). split.
    + intros [binary Hb]. rewrite Hb in Hrun. injection Hrun as <-.
      by destruct Hr as (? & ? & _).
    + intros Hok. destruct r as [e|binary]; [|by exists binary].
      by destruct Hr as [Hnot _].
Qed.

Lemma parseData_binary_succeeds_iff_witness :
  (∃ binary, parseData_binary (bytes_of_string "0Xab01") = Return (inr binary)) ↔
  Forall (λ c, is_hex_digit c = true) (payload_digits (bytes_of_string "0Xab01")) ∧
  Nat.Even (length (payload_digits (bytes_of_string "0Xab01"))).
Proof.
  apply (parseData_binary_succeeds_iff (bytes_of_string "0Xab01")). discriminate.
Defined.

(** X4.  Every error the normalizer returns is the formatted DecodeError:
    it carries the length of the whole text and its last byte, and its
    cause is [hex.ErrLength] for an odd number of characters after the
    marker, or [hex.InvalidByteError] of a character that is no hex
    digit. *)
Theorem parseData_binary_error_form (data : list byte) (e : error) :
  parseData_binary data = Return (inl e) →
  ∃ pos err b,
    e = ErrHexDecode pos err (Z.of_nat (length data)) b ∧
    last data = Some b ∧
    ((err = ErrLength ∧ Nat.Odd (length (payload_digits data))) ∨
     (∃ c, err = InvalidByteError c ∧ c ∈ payload_digits data ∧ is_hex_digit c = false)).
Proof.
  intros Hrun. destruct data as [|d0 [|d1 rest]].
  - discriminate.
  - destruct (decide (d0 = byte_0)) as [->|Hne]; [discriminate|].
    destruct (parseData_binary_one d0 Hne) as (err & Hrun' & Hcause).
    rewrite Hrun in Hrun'. injection Hrun' as ->.
    exists 0, err, d0. split; [done|]. split; [done|].
    destruct Hcause as [[-> _]|[-> Hx]].
    + left. split; [done|]. by exists 0%nat.
    + right. exists d0. split; [done|]. split; [apply list_elem_of_here|done].
  - destruct (parseData_binary_long d0 d1 rest) as (r & Hrun' & Hr).
    rewrite Hrun in Hrun'. injection Hrun' as <-.
    by destruct Hr as [_ Hform].
Qed.

Lemma parseData_binary_error_form_witness :
  ∃ pos err b,
    ErrHexDecode 1 (InvalidByteError Byte.x7a) 6 Byte.x7a =
      ErrHexDecode pos err (Z.of_nat (length (bytes_of_string "0x41zz"))) b ∧
    last (bytes_of_string "0x41zz") = Some b ∧
    ((err = ErrLength ∧ Nat.Odd (length (payload_digits (bytes_of_string "0x41zz")))) ∨
     (∃ c, err = InvalidByteError c ∧ c ∈ payload_digits (bytes_of_string "0x41zz") ∧
           is_hex_digit c = false)).
Proof.
  apply (parseData_binary_error_form (bytes_of_string "0x41zz")). reflexivity.
Defined.

(** ** unmarshalProtoData and convertToMap, further *)

Lemma convertToMap_fields_ext (fields : list FieldDescriptor) (m1 m2 : Message)
    (result : gmap string GoAny) :
  (∀ f, f ∈ fields → Has m1 f = Has m2 f ∧ Get m1 f = Get m2 f) →
  convertToMap_fields fields m1 result = convertToMap_fields fields m2 result.
Proof.
  revert result. induction fields as [|f rest IH]; intros result Hext; [done|].
  cbn. destruct (Hext f (list_elem_of_here _ _)) as [-> ->].
  assert (∀ g, g ∈ rest → Has m1 g = Has m2 g ∧ Get m1 g = Get m2 g) as Hrest
    by (intros g Hg; apply Hext; by apply list_elem_of_further).
  destruct (Has m2 f); cbn; [|by apply IH].
  destruct (if IsList f then _ else _) as [v|p]; cbn; [by apply IH|done].
Qed.

(** X5.  [convertToMap] looks at a message only through [Has] and [Get] on
    the fields the descriptor declares: two messages that agree there give
    the same result, so unknown fields never reach the output. *)
Theorem convertToMap_declared_fields_only (d : MessageDescriptor) (m1 m2 : Message) :
  (∀ f, f ∈ Fields d → Has m1 f = Has m2 f ∧ Get m1 f = Get m2 f) →
  convertToMap d m1 = convertToMap d m2.
Proof. intros Hext. unfold convertToMap. by apply convertToMap_fields_ext. Qed.

Lemma convertToMap_declared_fields_only_witness :
  convertToMap Sample.Person Sample.alice = convertToMap Sample.Person Cases.alice_unknown.
Proof.
  apply (convertToMap_declared_fields_only Sample.Person Sample.alice Cases.alice_unknown).
  intros f Hf. apply list_elem_of_In in Hf. cbn in Hf.
  destruct Hf as [<-|[<-|[]]]; split; reflexivity.
Defined.

(** X6.  A message with none of the declared fields set (the decoding of
    an empty payload) converts to the empty map: no key, no placeholder. *)
Theorem convertToMap_nothing_set (d : MessageDescriptor) (msg : Message) :
  (∀ f, f ∈ Fields d → Has msg f = false) →
  convertToMap d msg = Return ∅.
Proof.
  unfold convertToMap. generalize (∅ : gmap string GoAny).
  induction (Fields d) as [|f rest IH]; intros result Hnone; [done|].
  cbn. rewrite (Hnone f (list_elem_of_here _ _)). cbn.
  apply IH. intros g Hg. apply Hnone. by apply list_elem_of_further.
Qed.

Lemma convertToMap_nothing_set_witness :
  convertToMap Sample.Team Cases.nothing_set = Return ∅.
Proof.
  apply (convertToMap_nothing_set Sample.Team Cases.nothing_set). reflexivity.
Defined.

Lemma convertToMap_panicked (d : MessageDescriptor) (msg : Message) :
  (panicked (convertToMap d msg) ↔
   Exists (λ f, Has msg f = true ∧ IsList f = true ∧ ∀ l, Get msg f ≠ VList l) (Fields d)) ∧
  (panicked (convertToMap d msg) → convertToMap d msg = Panic PanicTypeMismatch).
Proof.
  unfold convertToMap. generalize (∅ : gmap string GoAny).
  induction (Fields d) as [|f rest IH]; intros result.
  - cbn. split; [|by intros [p Hp]]. split; [by intros [p Hp]|].
    intros H. by apply Exists_nil in H.
  - cbn [convertToMap_fields]. rewrite Exists_cons.
    destruct (Has msg f) eqn:Hhas; cbn [negb].
    + destruct (IsList f) eqn:Hlist.
      * destruct (Get msg f) as [| | | | | | | | | | | l |] eqn:Hget;
          try (split; [split; [intros _; left; by repeat split|by eexists]|done]).
        cbn. destruct (IH (<[Name f:=ASlice (convertToMap_list l [])]> result)) as [Hiff Hpanic].
        split; [|done]. rewrite Hiff. split; [by right|].
        intros [(_ & _ & Hno)|H]; [by destruct (Hno l)|done].
      * cbn. destruct (IH (<[Name f:=Interface (Get msg f)]> result)) as [Hiff Hpanic].
        split; [|done]. rewrite Hiff. split; [by right|].
        intros [(_ & ? & _)|H]; [done|done].
    + destruct (IH result) as [Hiff Hpanic].
      split; [|done]. rewrite Hiff. split; [by right|].
      intros [(? & _)|H]; [done|done].
Qed.

(** X7.  [convertToMap] panics exactly when some declared repeated field is
    set and does not hold a list, and then with the type mismatch of
    [Value.List()]; in every other case it returns. *)
Theorem convertToMap_panics_iff (d : MessageDescriptor) (msg : Message) :
  (panicked (convertToMap d msg) ↔
   Exists (λ f, Has msg f = true ∧ IsList f = true ∧ ∀ l, Get msg f ≠ VList l) (Fields d)) ∧
  (panicked (convertToMap d msg) → convertToMap d msg = Panic PanicTypeMismatch).
Proof. apply convertToMap_panicked. Qed.

Lemma convertToMap_panics_iff_witness :
  panicked (convertToMap Sample.Team Cases.team_ill_typed) ∧
  convertToMap Sample.Team Cases.team_ill_typed = Panic PanicTypeMismatch.
Proof.
  assert (panicked (convertToMap Sample.Team Cases.team_ill_typed)) as Hp.
  { apply (proj1 (convertToMap_panics_iff Sample.Team Cases.team_ill_typed)).
    apply Exists_cons_tl, Exists_cons_hd. by repeat split. }
  split; [exact Hp|].
  exact (proj2 (convertToMap_panics_iff Sample.Team Cases.team_ill_typed) Hp).
Defined.

(** X8.  [unmarshalProtoData] panics in two cases only: the message name
    resolves to a descriptor that is not a message (an enum, a service),
    where the type assertion of line 68 fails whatever the payload; or the
    decoded message has a declared repeated field set that holds no list.
    An unknown name and a payload that does not decode are returned as
    errors. *)
Theorem unmarshalProtoData_panics_iff (env : Env) (files : Files)
    (data : list byte) (msgName : string) :
  panicked (unmarshalProtoData env files data msgName) ↔
  ∃ desc, Files_FindDescriptorByName env files msgName = inr desc ∧
          match desc with
          | DMessage d =>
              ∃ msg, proto_Unmarshal env data d = inr msg ∧
                     Exists (λ f, Has msg f = true ∧ IsList f = true ∧
                                  ∀ l, Get msg f ≠ VList l) (Fields d)
          | _ => True
          end.
Proof.
  unfold unmarshalProtoData.
  destruct (Files_FindDescriptorByName env files msgName) as [e|desc].
  { split; [by intros [p Hp]|by intros (desc & Hd & _)]. }
  destruct desc as [d|n|n]; cbn.
  - destruct (proto_Unmarshal env data d) as [e|msg] eqn:Hun.
    + split; [by intros [p Hp]|]. intros (desc & [= <-] & msg & Hmsg & _).
      congruence.
    + destruct (convertToMap_panicked d msg) as [Hiff _]. split.
      * intros [p Hp]. exists (DMessage d). split; [done|]. exists msg.
        split; [done|]. apply Hiff. destruct (convertToMap d msg); [done|by eexists].
      * intros (desc & [= <-] & msg' & Hmsg & Hex).
        assert (msg' = msg) as -> by congruence.
        apply Hiff in Hex as [p Hp]. rewrite Hp. by eexists.
  - split; [intros _; by exists (DEnum n)|intros _; by eexists].
  - split; [intros _; by eexists|intros _; by eexists].
Qed.

Lemma unmarshalProtoData_panics_iff_witness :
  panicked (unmarshalProtoData Cases.env_enum Sample.files Sample.alice_bytes "pkg.Color").
Proof.
  apply (proj2 (unmarshalProtoData_panics_iff Cases.env_enum Sample.files
                  Sample.alice_bytes "pkg.Color")).
  exists (DEnum "pkg.Color"). split; reflexivity.
Defined.

(** ** ReadData, further *)

Lemma ReadData_assign_spec (fields records : list string) :
  ∀ (k : nat) (m : gmap string GoAny),
    (k + length fields ≤ length records)%nat →
    ∃ m', ReadData_assign fields k records m = Return m' ∧
          (∀ key, key ∉ fields → m' !! key = m !! key) ∧
          (∀ key, key ∈ fields → is_Some (m' !! key)) ∧
          (NoDup fields →
           ∀ j v, fields !! j = Some v →
                  ∃ r, records !! (k + j)%nat = Some r ∧ m' !! v = Some (AString r)).
Proof.
  induction fields as [|v rest IH]; intros k m Hlen.
  - exists m. cbn. split; [done|]. split; [done|]. split.
    + intros key Hk. by apply elem_of_nil in Hk.
    + intros _ j v Hj. by rewrite lookup_nil in Hj.
  - cbn in Hlen. cbn [ReadData_assign]. unfold index.
    destruct (lookup_lt_is_Some_2 records k ltac:(lia)) as [r Hr]. rewrite Hr. cbn.
    destruct (IH (S k) (<[v := AString r]> m) ltac:(lia)) as (m' & Hrun & Hother & Hin & Hval).
    exists m'. split; [done|]. split; [|split].
    + intros key Hkey. apply not_elem_of_cons in Hkey as [Hne Hkey].
      rewrite Hother by done. by apply lookup_insert_ne.
    + intros key Hkey. destruct (decide (key ∈ rest)) as [Hr'|Hr']; [by apply Hin|].
      apply elem_of_cons in Hkey as [->|Hkey]; [|done].
      rewrite Hother by done. rewrite lookup_insert_eq. by eexists.
    + intros Hnd j w Hj. apply NoDup_cons in Hnd as [Hv Hnd].
      destruct j as [|j]; cbn in Hj.
      * injection Hj as <-. exists r. rewrite Nat.add_0_r. split; [done|].
        rewrite Hother by done. apply lookup_insert_eq.
      * destruct (Hval Hnd j w Hj) as (r' & Hr' & Hm').
        exists r'. split; [|done]. by replace (k + S j)%nat with (S k + j)%nat by lia.
Qed.

Lemma ReadData_iter_ignores_error (records : option (list string)) (err : option error)
    (fields : list string) (count : Z) :
  err ≠ Some EOF →
  ReadData_iter (records, None) fields count = ReadData_iter (records, err) fields count.
Proof. intros Herr. unfold ReadData_iter. by destruct records, err as [[]|]. Qed.

(** What a turn of the loop that sends a record has done. *)
Lemma ReadData_iter_send (read : option (list string) * option error)
    (fields : list string) (count count' : Z) (d : Data) :
  ReadData_iter read fields count = (IterSend d, count') →
  ∃ records,
    fst read = Some records ∧ snd read ≠ Some EOF ∧
    (length fields ≤ length records)%nat ∧
    count' = wrap_uint32 (count + 1) ∧ line d = wrap_uint32 (count + 1) ∧
    (∀ key, key ∈ dom (data d) ↔ key ∈ fields) ∧
    (NoDup fields →
     ∀ j v, fields !! j = Some v →
            ∃ r, records !! j = Some r ∧ data d !! v = Some (AString r)).
Proof.
  destruct read as [[records|] err]; intros Hit.
  - assert (err ≠ Some EOF) as Herr by (intros ->; discriminate).
    rewrite <- (ReadData_iter_ignores_error (Some records) err) in Hit by done.
    unfold ReadData_iter in Hit. cbn zeta in Hit.
    destruct (length records <? length fields)%nat eqn:Hlen; [discriminate|].
    apply Nat.ltb_ge in Hlen.
    destruct (ReadData_assign_spec fields records 0 ∅ ltac:(lia))
      as (m & Hrun & Hother & Hin & Hval).
    rewrite Hrun in Hit. injection Hit as <- <-.
    exists records. cbn. split; [done|]. split; [done|]. split; [done|].
    split; [done|]. split; [done|]. split; [|exact Hval].
    intros key. rewrite elem_of_dom. split; [|by apply Hin].
    intros [x Hx]. destruct (decide (key ∈ fields)) as [|Hno]; [done|].
    rewrite Hother in Hx by done. by rewrite lookup_empty in Hx.
  - unfold ReadData_iter in Hit. by destruct err as [[]|].
Qed.

(** The records [ReadData] sends, one for each row it got through. *)
Lemma ReadData_loop_sent (fields : list string) (reader : Reader) :
  ∀ (count : Z) (dataList : list Data),
    ∃ sent, fst (ReadData_loop reader fields (wrap_uint32 count) dataList) = dataList ++ sent ∧
            ∀ i d, sent !! i = Some d →
                   ∃ read c', reader !! i = Some read ∧
                              ReadData_iter read fields (wrap_uint32 (count + Z.of_nat i))
                                = (IterSend d, c').
Proof.
  induction reader as [|read reader IH]; intros count dataList.
  - exists []. cbn. split; [by rewrite app_nil_r|]. intros i d Hi. by rewrite lookup_nil in Hi.
  - cbn [ReadData_loop].
    destruct (ReadData_iter read fields (wrap_uint32 count)) as [[| e | d0 | p] c'] eqn:Hit;
      try (exists []; cbn; split; [by rewrite app_nil_r|];
           intros i d Hi; by rewrite lookup_nil in Hi).
    destruct (ReadData_iter_send _ _ _ _ _ Hit) as (records & _ & _ & _ & -> & _).
    rewrite wrap_uint32_succ.
    destruct (IH (count + 1) (dataList ++ [d0])) as (sent & Hsent & Hnth).
    exists (d0 :: sent). split; [by rewrite Hsent, <- app_assoc|].
    intros [|i] d Hi; cbn in Hi.
    + injection Hi as <-. exists read, (wrap_uint32 (wrap_uint32 count + 1)).
      split; [done|]. rewrite Z.add_0_r. rewrite Hit. by rewrite wrap_uint32_succ.
    + destruct (Hnth i d Hi) as (read' & c'' & Hread & Hit').
      exists read', c''. split; [done|].
      by replace (count + Z.of_nat (S i)) with (count + 1 + Z.of_nat i) by lia.
Qed.

(** X9.  The record [ReadData] sends for row [i] (counting from 0) has the
    line number [i + 1] (as a uint32), has exactly the field names as
    keys, and maps the [j]-th field name to the [j]-th column of that row,
    verbatim; columns beyond the field names are left out. *)
Theorem ReadData_record_contents (reader : Reader) (fields : list string)
    (i : nat) (d : Data) :
  NoDup fields →
  fst (ReadData reader fields) !! i = Some d →
  ∃ records err,
    reader !! i = Some (Some records, err) ∧
    line d = wrap_uint32 (Z.of_nat i + 1) ∧
    (∀ key, key ∈ dom (data d) ↔ key ∈ fields) ∧
    ∀ j v, fields !! j = Some v →
           ∃ r, records !! j = Some r ∧ data d !! v = Some (AString r).
Proof.
  intros Hnd Hi. unfold ReadData in Hi.
  destruct (ReadData_loop_sent fields reader 0 []) as (sent & Hsent & Hnth).
  change (wrap_uint32 0) with 0 in Hsent. rewrite Hsent in Hi. cbn in Hi.
  destruct (Hnth i d Hi) as ([recs err] & c' & Hread & Hit).
  destruct (ReadData_iter_send _ _ _ _ _ Hit) as (records & Hrec & _ & _ & _ & Hline & Hdom & Hval).
  cbn in Hrec. subst recs. exists records, err. split; [done|]. split.
  - rewrite Hline, wrap_uint32_succ. by rewrite Z.add_0_l.
  - split; [done|]. by apply Hval.
Qed.

Lemma ReadData_record_contents_witness :
  ∃ records err,
    ([(Some ["7"; "0x"; "more"], None)] : Reader) !! 0%nat = Some (Some records, err) ∧
    line {| line := 1; data := <["data" := AString "0x"]> (<["id" := AString "7"]> ∅) |}
      = wrap_uint32 (Z.of_nat 0 + 1) ∧
    (∀ key, key ∈ dom (data {| line := 1;
                               data := <["data" := AString "0x"]> (<["id" := AString "7"]> ∅) |})
            ↔ key ∈ ["id"; "data"]) ∧
    ∀ j v, ["id"; "data"] !! j = Some v →
           ∃ r, records !! j = Some r ∧
                data {| line := 1;
                        data := <["data" := AString "0x"]> (<["id" := AString "7"]> ∅) |} !! v
                  = Some (AString r).
Proof.
  apply (ReadData_record_contents [(Some ["7"; "0x"; "more"], None)] ["id"; "data"] 0).
  - apply (bool_decide_unpack _). vm_compute. exact I.
  - reflexivity.
Defined.

(** X10.  When every row has a column for each field name, [ReadData]
    returns nil after sending one record per row. *)
Theorem ReadData_all_rows (reader : Reader) (fields : list string) :
  Forall (enough_columns fields) reader →
  snd (ReadData reader fields) = Return None ∧
  length (fst (ReadData reader fields)) = length reader.
Proof.
  intros Hrows. unfold ReadData.
  destruct (ReadData_loop_enough fields reader [] 0 [] Hrows) as (sent & Hlen & Hsent).
  specialize (Hsent []). rewrite app_nil_r in Hsent.
  change (wrap_uint32 0) with 0 in Hsent. rewrite Hsent. cbn. done.
Qed.

Lemma ReadData_all_rows_witness :
  snd (ReadData Sample.three_rows ["id"; "data"]) = Return None ∧
  length (fst (ReadData Sample.three_rows ["id"; "data"])) = length Sample.three_rows.
Proof.
  apply (ReadData_all_rows Sample.three_rows ["id"; "data"]).
  repeat constructor; apply Sample_row_enough.
Defined.

(** X11.  [ReadData] never panics (the columns it indexes are there, by the
    length check before), and the only errors it returns are its own two. *)
Theorem ReadData_never_panics (reader : Reader) (fields : list string) :
  snd (ReadData reader fields) = Return None ∨
  snd (ReadData reader fields) = Return (Some ErrReadCsv) ∨
  ∃ n, snd (ReadData reader fields) = Return (Some (ErrNotEnoughFields n)).
Proof.
  unfold ReadData. generalize 0 ([] : list Data).
  induction reader as [|read reader IH]; intros count dataList; [by left|].
  cbn [ReadData_loop]. destruct read as [[records|] err]; unfold ReadData_iter.
  - destruct (length records <? length fields)%nat eqn:Hlen.
    + destruct err as [[]|]; try (by left); right; right; by eexists.
    + apply Nat.ltb_ge in Hlen.
      destruct (ReadData_assign_returns fields records 0 ∅ ltac:(lia)) as [m ->].
      destruct err as [[]|]; try (by left); apply IH.
  - destruct err as [[]|]; try (by left); right; by left.
Qed.

Lemma ReadData_loop_stops_at_EOF (fields : list string) (pre post : Reader)
    (records : option (list string)) :
  ∀ (count : Z) (dataList : list Data),
    ReadData_loop (pre ++ (records, Some EOF) :: post) fields count dataList =
    ReadData_loop pre fields count dataList.
Proof.
  induction pre as [|read pre IH]; intros count dataList.
  - cbn. by destruct records.
  - cbn [app ReadData_loop].
    by destruct (ReadData_iter read fields count) as [[| e | d | p] c'].
Qed.

(** X12.  [io.EOF] ends the stream normally: what [Read] would deliver
    after it is never asked for, and a record that comes together with
    [io.EOF] is dropped. *)
Theorem ReadData_stops_at_EOF (fields : list string) (pre post : Reader)
    (records : option (list string)) :
  ReadData (pre ++ (records, Some EOF) :: post) fields = ReadData pre fields.
Proof. apply ReadData_loop_stops_at_EOF. Qed.

(** X13.  A [Read] that fails without a record (and not with [io.EOF])
    after rows with enough columns: [ReadData] returns its
    "faield to read csv data" error, having sent the rows before. *)
Theorem ReadData_read_error (fields : list string) (pre post : Reader)
    (err : option error) :
  Forall (enough_columns fields) pre →
  err ≠ Some EOF →
  ReadData (pre ++ (None, err) :: post) fields =
    (fst (ReadData pre fields), Return (Some ErrReadCsv)).
Proof.
  intros Hpre Herr. unfold ReadData.
  destruct (ReadData_loop_enough fields pre [] 0 [] Hpre) as (sent & Hlen & Hsent).
  change 0 with (wrap_uint32 0) at 1 2.
  rewrite (Hsent ((None, err) :: post)).
  pose proof (Hsent []) as Hnil. rewrite app_nil_r in Hnil. rewrite Hnil.
  cbn [ReadData_loop app fst]. unfold ReadData_iter.
  by destruct err as [[]|].
Qed.

Lemma ReadData_read_error_witness :
  ReadData ([Sample.row "1"] ++ (None, Some (ErrExternal "read: input/output error"))
                              :: [Sample.row "3"]) ["id"; "data"] =
    (fst (ReadData [Sample.row "1"] ["id"; "data"]), Return (Some ErrReadCsv)).
Proof.
  apply (ReadData_read_error ["id"; "data"] [Sample.row "1"] [Sample.row "3"]
           (Some (ErrExternal "read: input/output error"))).
  - constructor; [apply Sample_row_enough|constructor].
  - discriminate.
Defined.

(** X14.  An error that [Read] returns along with a record (a wrong number
    of fields, say) has no effect: as long as it is not [io.EOF],
    [ReadData] does what it does without it. *)
Theorem ReadData_ignores_errors_with_records (reader : Reader) (fields : list string) :
  Forall (λ read, snd read ≠ Some EOF) reader →
  ReadData ((λ read, (fst read, None)) <$> reader) fields = ReadData reader fields.
Proof.
  unfold ReadData. generalize 0 ([] : list Data). intros count dataList Hno.
  revert count dataList.
  induction Hno as [|[records err] reader Herr _ IH]; intros count dataList; [done|].
  cbn [fmap list_fmap ReadData_loop fst]. cbn in Herr.
  rewrite (ReadData_iter_ignores_error records err) by done.
  by destruct (ReadData_iter (records, err) fields _) as [[| e | d | p] c'].
Qed.

Lemma ReadData_ignores_errors_with_records_witness :
  ReadData ((λ read, (fst read, None)) <$>
            [(Some ["1"; "0x"], None); (Some ["2"; "0x"; "extra"], Some (ErrExternal "wrong number of fields"))])
           ["id"; "data"] =
  ReadData [(Some ["1"; "0x"], None); (Some ["2"; "0x"; "extra"], Some (ErrExternal "wrong number of fields"))]
           ["id"; "data"].
Proof.
  apply (ReadData_ignores_errors_with_records
           [(Some ["1"; "0x"], None);
            (Some ["2"; "0x"; "extra"], Some (ErrExternal "wrong number of fields"))]
           ["id"; "data"]).
  repeat constructor; discriminate.
Defined.

(** ** FileWriter.Write, further *)

(** X15.  On a file whose writes do not fail, successive calls of [Write]
    all return nil and leave in the file, after what it held, each text
    followed by a newline, in the order of the calls. *)
Theorem FileWriter_Write_all_lines (f : File) (texts : list (list byte)) :
  faults f = [] →
  FileWriter_Write_all {| mutex := false; file := Some f |} texts =
    (replicate (length texts) None,
     {| mutex := false;
        file := Some {| contents := contents f ++ (texts ≫= λ t, t ++ [newline]);
                        faults := [] |} |}).
Proof.
  revert f. induction texts as [|text rest IH]; intros [c fa] Hf; cbn in Hf; subst fa.
  - cbn. by rewrite app_nil_r.
  - cbn [FileWriter_Write_all]. unfold FileWriter_Write, os_File_Write. cbn.
    rewrite (IH {| contents := (c ++ text) ++ [newline]; faults := [] |} eq_refl). cbn.
    do 4 f_equal. by rewrite <- !app_assoc.
Qed.

Lemma FileWriter_Write_all_lines_witness :
  FileWriter_Write_all
    {| mutex := false; file := Some {| contents := []; faults := [] |} |}
    [bytes_of_string "{}"; bytes_of_string "[]"] =
    (replicate (length [bytes_of_string "{}"; bytes_of_string "[]"]) None,
     {| mutex := false;
        file := Some {| contents := contents {| contents := []; faults := [] |} ++
                          ([bytes_of_string "{}"; bytes_of_string "[]"] ≫= λ t, t ++ [newline]);
                        faults := [] |} |}).
Proof.
  apply (FileWriter_Write_all_lines {| contents := []; faults := [] |}
           [bytes_of_string "{}"; bytes_of_string "[]"]).
  reflexivity.
Defined.

(** X16.  Whatever the writer and the outcome of the two writes, [Write]
    returns with the mutex released, and what the file held before is
    still its beginning: [Write] only appends. *)
Theorem FileWriter_Write_releases_and_appends (w : FileWriter) (text : list byte) :
  mutex (snd (FileWriter_Write w text)) = false ∧
  ∀ f, file w = Some f →
       ∃ f', file (snd (FileWriter_Write w text)) = Some f' ∧
             contents f `prefix_of` contents f'.
Proof.
  split.
  - unfold FileWriter_Write.
    destruct (os_File_Write _ text) as [[n [err|]] f1]; cbn; [done|].
    by destruct (os_File_Write f1 [newline]) as [[n2 [err|]] f2].
  - intros f Hf. destruct w as [mu fo]. cbn in Hf. subst fo.
    unfold FileWriter_Write, os_File_Write. cbn.
    destruct (faults f) as [|[[n e]|] fa]; cbn.
    + eexists. split; [done|]. cbn. rewrite <- app_assoc. by apply prefix_app_r.
    + eexists. split; [done|]. cbn. by apply prefix_app_r.
    + destruct fa as [|[[n e]|] fa]; cbn; eexists; (split; [done|]); cbn;
        rewrite <- app_assoc; by apply prefix_app_r.
Qed.

(** ** main before the goroutines, further *)

Lemma String_length_0 (s : string) : (String.length s =? 0)%nat = true ↔ s = "".
Proof. destruct s; cbn; split; done. Qed.

Lemma main_hasDataField_prefix (pre post : list string) (dataField : string) :
  Forall (λ v, v ≠ dataField ∧ v ≠ "") pre →
  main_hasDataField (pre ++ post) dataField = main_hasDataField post dataField.
Proof.
  induction 1 as [|v pre [Hne Hempty] _ IH]; [done|].
  cbn. rewrite bool_decide_eq_false_2 by done.
  destruct (String.length v =? 0)%nat eqn:Hlen; [|done].
  by apply String_length_0 in Hlen.
Qed.

(** X17.  The field names are checked only up to the payload field.  An
    empty name before it is fatal, before any I/O; once the payload field
    is found the loop stops, and names after it, empty ones too, pass. *)
Theorem main_init_field_names (env : Env) (fl : Flags) (w : World)
    (pre post : list string) :
  Forall (λ v, v ≠ dataField fl ∧ v ≠ "") pre →
  (strings_Split (fieldsParam fl) = pre ++ "" :: post → dataField fl ≠ "" →
   main_init env fl w = (Panic (PanicError ErrEmptyFieldName), w)) ∧
  (strings_Split (fieldsParam fl) = pre ++ dataField fl :: post →
   main_hasDataField (strings_Split (fieldsParam fl)) (dataField fl) = Return true).
Proof.
  intros Hpre. split.
  - intros Hsplit Hdf. unfold main_init, mbind, M_bind, lift.
    rewrite Hsplit, main_hasDataField_prefix by done. cbn.
    by rewrite bool_decide_eq_false_2 by done.
  - intros Hsplit. rewrite Hsplit, main_hasDataField_prefix by done. cbn.
    by rewrite bool_decide_eq_true_2.
Qed.

Lemma main_init_field_names_witness :
  main_init Sample.env (Configs.with_names "id,,data" "console" "json") initial_world
    = (Panic (PanicError ErrEmptyFieldName), initial_world) ∧
  main_hasDataField (strings_Split (fieldsParam (Configs.with_names "id,data,," "console" "json")))
                    (dataField (Configs.with_names "id,data,," "console" "json"))
    = Return true.
Proof.
  split.
  - apply (proj1 (main_init_field_names Sample.env
                    (Configs.with_names "id,,data" "console" "json") initial_world
                    ["id"] ["data"] ltac:(repeat constructor; discriminate)));
      [reflexivity|discriminate].
  - apply (proj2 (main_init_field_names Sample.env
                    (Configs.with_names "id,data,," "console" "json") initial_world
                    ["id"] [""; ""] ltac:(repeat constructor; discriminate))).
    reflexivity.
Defined.

(** X18.  [registerPbFile] reads the descriptor file once and does no
    other I/O; unless it returns nil, the registry is what it was. *)
Theorem registerPbFile_registry_unchanged (env : Env) (filename : string) (w w' : World)
    (o : Outcome (option error)) :
  registerPbFile env filename w = (o, w') →
  io_trace w' = io_trace w ++ [EvReadFile filename] ∧
  (o ≠ Return None → GlobalFiles w' = GlobalFiles w).
Proof.
  unfold registerPbFile, mbind, M_bind, emit, lift, get_GlobalFiles, set_GlobalFiles, mret, M_ret.
  cbn.
  destruct (ioutil_ReadFile env filename) as [e|b]; [by intros [= <- <-]|].
  destruct (proto_Unmarshal_set env b) as [e|set]; [by intros [= <- <-]|].
  destruct (index (GetFile set) 0) as [pb|p]; cbn; [|by intros [= <- <-]].
  destruct (protodesc_NewFile env pb (GlobalFiles w)) as [e|fd]; cbn; [by intros [= <- <-]|].
  destruct (Files_RegisterFile env (GlobalFiles w) fd) as [e|fs]; cbn; by intros [= <- <-].
Qed.

Lemma registerPbFile_registry_unchanged_witness :
  io_trace {| io_trace := [EvReadFile "missing.pb"]; GlobalFiles := [] |}
    = io_trace initial_world ++ [EvReadFile "missing.pb"] ∧
  (Return (Some (ErrExternal "no such file")) ≠ Return None →
   GlobalFiles {| io_trace := [EvReadFile "missing.pb"]; GlobalFiles := [] |}
     = GlobalFiles initial_world).
Proof.
  apply (registerPbFile_registry_unchanged Sample.env "missing.pb" initial_world
           {| io_trace := [EvReadFile "missing.pb"]; GlobalFiles := [] |}
           (Return (Some (ErrExternal "no such file")))).
  reflexivity.
Defined.

(** X19.  [registerPbFile] returns nil exactly when the file is read, its
    bytes decode to a descriptor set with at least one file entry, and the
    first entry resolves and registers; the registry is then the one the
    library made of that entry.  The entries after the first are never
    looked at. *)
Theorem registerPbFile_returns_nil_iff (env : Env) (filename : string) (w w' : World) :
  registerPbFile env filename w = (Return None, w') ↔
  ∃ b set pb rest fd files',
    ioutil_ReadFile env filename = inr b ∧
    proto_Unmarshal_set env b = inr set ∧
    GetFile set = pb :: rest ∧
    protodesc_NewFile env pb (GlobalFiles w) = inr fd ∧
    Files_RegisterFile env (GlobalFiles w) fd = inr files' ∧
    w' = {| io_trace := io_trace w ++ [EvReadFile filename]; GlobalFiles := files' |}.
Proof.
  unfold registerPbFile, mbind, M_bind, emit, lift, get_GlobalFiles, set_GlobalFiles, mret, M_ret.
  cbn. split.
  - destruct (ioutil_ReadFile env filename) as [e|b] eqn:Hread; [discriminate|].
    destruct (proto_Unmarshal_set env b) as [e|set] eqn:Hset; [discriminate|].
    destruct (GetFile set) as [|pb rest] eqn:Hfiles; [discriminate|]. cbn.
    destruct (protodesc_NewFile env pb (GlobalFiles w)) as [e|fd] eqn:Hnew; [discriminate|].
    cbn. destruct (Files_RegisterFile env (GlobalFiles w) fd) as [e|fs] eqn:Hreg;
      cbn; [discriminate|].
    intros [= <-]. by exists b, set, pb, rest, fd, fs.
  - intros (b & set & pb & rest & fd & files' & Hread & Hset & Hfiles & Hnew & Hreg & ->).
    rewrite Hread, Hset, Hfiles. cbn. rewrite Hnew. cbn. by rewrite Hreg.
Qed.

Lemma registerPbFile_returns_nil_iff_witness :
  registerPbFile Sample.env "pkg.pb" initial_world =
    (Return None,
     {| io_trace := io_trace initial_world ++ [EvReadFile "pkg.pb"];
        GlobalFiles := Sample.files |}).
Proof.
  apply (proj2 (registerPbFile_returns_nil_iff Sample.env "pkg.pb" initial_world
                  {| io_trace := io_trace initial_world ++ [EvReadFile "pkg.pb"];
                     GlobalFiles := Sample.files |})).
  exists [Byte.x0a], {| GetFile := [Sample.schema] |}, Sample.schema, [],
    {| fd_path := "pkg.proto"; fd_messages := [Sample.Person; Sample.Team] |}, Sample.files.
  repeat split.
Defined.

(** [main] from the choice of the writer on. *)
Lemma main_init_from_writer (env : Env) (fl : Flags) (w w1 : World) (cap : Z) :
  main_reaches_writer env fl w w1 cap →
  main_init env fl w =
    (writer ← (if bool_decide (writerName fl = "console") then mret ConsoleWriter
               else if bool_decide (writerName fl = "file") then
                 '(err, fileWriter) ←
                   FileWriter_OpenFile env {| mutex := false; file := None |} (dstFile fl);
                 match err with
                 | Some err => panic (PanicError err)
                 | None => mret (FileWriterOf fileWriter)
                 end
               else panic (PanicError (ErrInvalidWriter (writerName fl))));
     marshaler ← (if bool_decide (marshalerName fl = "json") then mret JsonMarshaler
                  else panic (PanicError (ErrInvalidMarshaler (marshalerName fl))));
     mret {| fields_of := strings_Split (fieldsParam fl); dataList_cap := cap;
             writer_of := writer; marshaler_of := marshaler |}) w1.
Proof.
  intros (Hfields & Hreg & HW & Hchan).
  unfold main_init. unfold mbind at 1, M_bind at 1, lift at 1. rewrite Hfields. cbn [negb].
  unfold mbind at 1, M_bind at 1. rewrite Hreg.
  rewrite (proj2 (Z.leb_gt _ _)) by lia.
  unfold mbind at 1, M_bind at 1, lift at 1. rewrite Hchan. reflexivity.
Qed.

(** X20.  A writer name other than "console" and "file" is fatal once the
    schema is registered and the queue made: nothing but the descriptor
    file has been touched, no destination file is created. *)
Theorem main_init_invalid_writer (env : Env) (fl : Flags) (w w1 : World) (cap : Z) :
  main_reaches_writer env fl w w1 cap →
  writerName fl ≠ "console" → writerName fl ≠ "file" →
  main_init env fl w = (Panic (PanicError (ErrInvalidWriter (writerName fl))), w1).
Proof.
  intros Hpre Hc Hf. rewrite (main_init_from_writer _ _ _ _ _ Hpre).
  unfold mbind, M_bind. by rewrite !bool_decide_eq_false_2 by done.
Qed.

Lemma Configs_reaches_writer (fieldsParam writerName marshalerName : string) :
  main_hasDataField (strings_Split fieldsParam) "data" = Return true →
  main_reaches_writer Sample.env (Configs.with_names fieldsParam writerName marshalerName)
    initial_world Configs.loaded 2.
Proof. intros Hf. split; [exact Hf|]. split; [reflexivity|]. split; [cbn; lia|reflexivity]. Defined.

Lemma main_init_invalid_writer_witness :
  main_init Sample.env (Configs.with_names "id,data" "printer" "json") initial_world
    = (Panic (PanicError (ErrInvalidWriter "printer")), Configs.loaded).
Proof.
  apply (main_init_invalid_writer Sample.env (Configs.with_names "id,data" "printer" "json")
           initial_world Configs.loaded 2).
  - apply Configs_reaches_writer. reflexivity.
  - discriminate.
  - discriminate.
Defined.

(** X21.  The marshaler name is checked after the writer is set up: with
    the file writer and a marshaler name other than "json", the
    destination file has been created by the time [main] panics. *)
Theorem main_init_invalid_marshaler_after_create (env : Env) (fl : Flags) (w w1 : World)
    (cap : Z) (f : File) :
  main_reaches_writer env fl w w1 cap →
  writerName fl = "file" →
  os_Create env (dstFile fl) = inr f →
  marshalerName fl ≠ "json" →
  main_init env fl w =
    (Panic (PanicError (ErrInvalidMarshaler (marshalerName fl))),
     {| io_trace := io_trace w1 ++ [EvCreate (dstFile fl)]; GlobalFiles := GlobalFiles w1 |}).
Proof.
  intros Hpre Hfile Hcreate Hm. rewrite (main_init_from_writer _ _ _ _ _ Hpre).
  unfold mbind, M_bind, FileWriter_OpenFile, emit, mret, M_ret. rewrite Hfile. cbn.
  rewrite Hcreate. cbn. rewrite (bool_decide_eq_false_2 (marshalerName fl = "json")) by done.
  by rewrite (bool_decide_eq_true_2 ("file" = "file")).
Qed.

Lemma main_init_invalid_marshaler_after_create_witness :
  main_init Sample.env (Configs.with_names "id,data" "file" "xml") initial_world =
    (Panic (PanicError (ErrInvalidMarshaler "xml")),
     {| io_trace := io_trace Configs.loaded ++ [EvCreate "out.json"];
        GlobalFiles := GlobalFiles Configs.loaded |}).
Proof.
  apply (main_init_invalid_marshaler_after_create Sample.env
           (Configs.with_names "id,data" "file" "xml") initial_world Configs.loaded 2
           {| contents := []; faults := [] |}).
  - apply Configs_reaches_writer. reflexivity.
  - reflexivity.
  - reflexivity.
  - discriminate.
Defined.

(** X22.  With a valid field list, a schema that registers, a positive
    worker count within the runtime's limit and the names "console" or
    "file" and "json", [main] gets to line 248: the fields are the
    comma-separated names, the writer is the one named (the file writer
    holding the file just created), and the only I/O so far is the read
    of the descriptor file and, for the file writer, the creation of the
    destination. *)
Theorem main_init_succeeds (env : Env) (fl : Flags) (w w1 : World) (cap : Z) :
  main_reaches_writer env fl w w1 cap →
  marshalerName fl = "json" →
  (writerName fl = "console" →
   main_init env fl w =
     (Return {| fields_of := strings_Split (fieldsParam fl); dataList_cap := cap;
                writer_of := ConsoleWriter; marshaler_of := JsonMarshaler |}, w1)) ∧
  (∀ f, writerName fl = "file" → os_Create env (dstFile fl) = inr f →
        main_init env fl w =
          (Return {| fields_of := strings_Split (fieldsParam fl); dataList_cap := cap;
                     writer_of := FileWriterOf {| mutex := false; file := Some f |};
                     marshaler_of := JsonMarshaler |},
           {| io_trace := io_trace w1 ++ [EvCreate (dstFile fl)];
              GlobalFiles := GlobalFiles w1 |})).
Proof.
  intros Hpre Hm. rewrite (main_init_from_writer _ _ _ _ _ Hpre). split.
  - intros Hc. unfold mbind, M_bind, mret, M_ret. rewrite Hc, Hm. reflexivity.
  - intros f Hfile Hcreate.
    unfold mbind, M_bind, FileWriter_OpenFile, emit, mret, M_ret. rewrite Hfile, Hm. cbn.
    rewrite Hcreate. by rewrite (bool_decide_eq_true_2 ("file" = "file")).
Qed.

Lemma main_init_succeeds_witness :
  main_init Sample.env (Configs.with_names "id,data" "console" "json") initial_world =
    (Return {| fields_of := strings_Split "id,data"; dataList_cap := 2;
               writer_of := ConsoleWriter; marshaler_of := JsonMarshaler |},
     Configs.loaded) ∧
  main_init Sample.env (Configs.with_names "id,data" "file" "json") initial_world =
    (Return {| fields_of := strings_Split "id,data"; dataList_cap := 2;
               writer_of := FileWriterOf
                              {| mutex := false;
                                 file := Some {| contents := []; faults := [] |} |};
               marshaler_of := JsonMarshaler |},
     {| io_trace := io_trace Configs.loaded ++ [EvCreate "out.json"];
        GlobalFiles := GlobalFiles Configs.loaded |}).
Proof.
  split.
  - apply (proj1 (main_init_succeeds Sample.env
                    (Configs.with_names "id,data" "console" "json") initial_world
                    Configs.loaded 2
                    (Configs_reaches_writer "id,data" "console" "json" eq_refl) eq_refl)).
    reflexivity.
  - apply (proj2 (main_init_succeeds Sample.env
                    (Configs.with_names "id,data" "file" "json") initial_world
                    Configs.loaded 2
                    (Configs_reaches_writer "id,data" "file" "json" eq_refl) eq_refl)
             {| contents := []; faults := [] |}); reflexivity.
Defined.

(** ** The pipeline, further *)

(** When [main] has returned, every record of the input has been written. *)
Lemma goroutine_inv_exit (cfg : Config) (rows : Reader) (s : Pipeline) :
  1 <= receiverNum (cfg_flags cfg) →
  goroutine_inv cfg rows s → main_pc s = MainExit →
  ∃ written, written ≡ₚ fst (ReadData rows (fields_of (cfg_setup cfg))) ∧
             output s = output (pipeline_start cfg rows) ++ lines cfg written.
Proof.
  intros HW (Hcr & Hfl & Hcl & Hrl & Hmain & Hdone & written & Hout & Hperm) Hexit.
  rewrite Hexit in Hmain. destruct Hmain as [Hlen Hall].
  exists written. split; [|done].
  rewrite (held_all_done _ Hall) in Hperm.
  destruct (workers s) as [|w ws] eqn:Hws; [cbn in Hlen; lia|].
  destruct Hdone as [Hclosed Hq].
  { apply Forall_cons in Hall as [-> _]. apply list_elem_of_here. }
  rewrite Hq in Hperm. rewrite Hclosed in Hcl.
  destruct (producer s); try discriminate. cbn in Hperm.
  by rewrite !app_nil_r in Hperm.
Qed.

(** Once [main] is past [ReadData] and the queue is closed, [main] or a
    worker can move. *)
Lemma progress_when_closed (cfg : Config) (rows : Reader) (s : Pipeline) :
  goroutine_inv cfg rows s → alive s → main_past_ReadData cfg s → producer s = PDone →
  ∃ s', step cfg s s'.
Proof.
  intros (Hcr & Hfl & Hcl & Hrl & Hmain & Hdone & _) Hal Hpast Hp.
  rewrite Hp in Hcl. cbn in Hcl.
  destruct (main_pc s) as [i| |] eqn:Hpc; [| |by destruct Hal].
  - destruct (Z_lt_ge_dec i (receiverNum (cfg_flags cfg))) as [Hlt|Hge].
    + eexists. by eapply step_spawn.
    + eexists. eapply step_spawned; [done..|]. lia.
  - destruct (workers_done_or_not (workers s)) as [Hall|(k & w & Hk & Hw)].
    { eexists. by eapply step_wait. }
    destruct w as [|d|]; [| |done].
    + destruct (queue s) as [|d q] eqn:Hq; [|eexists; by eapply step_recv].
      eexists. by eapply step_range_end.
    + eexists. by eapply step_body.
Qed.

(** A run in which some goroutine can always move goes on until [main]
    returns. *)
Lemma completes_by_progress (cfg : Config) (rows : Reader) :
  Forall (λ d, returned (worker_text cfg d)) (fst (ReadData rows (fields_of (cfg_setup cfg)))) →
  (∀ s, goroutine_inv cfg rows s → alive s → ∃ s', step cfg s s') →
  ∀ (n : nat) (s : Pipeline),
    (measure cfg s < n)%nat → goroutine_inv cfg rows s →
    ∃ s', reachable cfg s s' ∧ main_pc s' = MainExit.
Proof.
  intros Hvalid Hprogress n. induction n as [|n IH]; intros s Hn Hinv; [lia|].
  destruct (main_pc s) as [i| |] eqn:Hpc; [| |exists s; split; [apply rtc_refl|done]].
  all: destruct (Hprogress s Hinv) as [s1 Hs1];
    [split; [apply Hinv|congruence]|];
    pose proof (step_measure cfg s s1 Hs1);
    destruct (IH s1) as (s' & Hr & Hexit);
    [lia|by eapply goroutine_inv_step|];
    exists s'; split; [by eapply rtc_l|done].
Qed.

(** X23.  With a source file (the producer is a goroutine), rows that all
    have enough columns and decode, and a writer that does not fail: no
    run panics, no run deadlocks, some run ends with [main] returning, and
    whenever [main] has returned the output is one line for each input
    row, in some order. *)
Theorem pipeline_goroutine_one_line_per_row (cfg : Config) (rows : Reader) :
  producer_is_goroutine cfg = true →
  1 <= receiverNum (cfg_flags cfg) →
  1 <= dataList_cap (cfg_setup cfg) →
  Forall (enough_columns (fields_of (cfg_setup cfg))) rows →
  Forall (λ d, returned (worker_text cfg d)) (fst (ReadData rows (fields_of (cfg_setup cfg)))) →
  faultless (writer_of (cfg_setup cfg)) →
  (∀ s, reachable cfg (pipeline_start cfg rows) s →
        crashed s = None ∧
        (alive s → ∃ s', step cfg s s') ∧
        (main_pc s = MainExit →
         ∃ written, written ≡ₚ fst (ReadData rows (fields_of (cfg_setup cfg))) ∧
                    length written = length rows ∧
                    output s = output (pipeline_start cfg rows) ++ lines cfg written)) ∧
  (∃ s, reachable cfg (pipeline_start cfg rows) s ∧ main_pc s = MainExit).
Proof.
  intros Hmode HW Hcap Hrows Hvalid Hwriter.
  destruct (goroutine_pipeline_lines cfg rows Hmode HW Hcap Hrows Hvalid Hwriter)
    as (Hall & Hexit & Hlen).
  split; [|exact Hexit]. intros s Hr. destruct (Hall s Hr) as (Hcr & Hprog & Hout).
  split; [done|]. split; [done|]. intros Hmain.
  destruct (Hout Hmain) as (written & Hperm & Hw). exists written.
  split; [done|]. split; [|done]. by rewrite (Permutation_length Hperm).
Qed.

Lemma pipeline_goroutine_one_line_per_row_witness :
  (∀ s, reachable Sample.cfg_file (pipeline_start Sample.cfg_file Sample.three_rows) s →
        crashed s = None ∧
        (alive s → ∃ s', step Sample.cfg_file s s') ∧
        (main_pc s = MainExit →
         ∃ written,
           written ≡ₚ fst (ReadData Sample.three_rows (fields_of (cfg_setup Sample.cfg_file))) ∧
           length written = length Sample.three_rows ∧
           output s = output (pipeline_start Sample.cfg_file Sample.three_rows)
                      ++ lines Sample.cfg_file written)) ∧
  (∃ s, reachable Sample.cfg_file (pipeline_start Sample.cfg_file Sample.three_rows) s ∧
        main_pc s = MainExit).
Proof.
  apply (pipeline_goroutine_one_line_per_row Sample.cfg_file Sample.three_rows).
  - reflexivity.
  - cbn. lia.
  - cbn. lia.
  - apply Sample_three_rows_enough.
  - apply Sample_three_rows_valid.
  - exact I.
Defined.

Section inline_small.
Variable cfg : Config.
Variable rows : Reader.
Hypothesis Hmode : producer_is_goroutine cfg = false.
Hypothesis HW : 1 <= receiverNum (cfg_flags cfg).
Hypothesis Hfit : Z.of_nat (length rows) <= dataList_cap (cfg_setup cfg).
Hypothesis Hrows : Forall (enough_columns (fields_of (cfg_setup cfg))) rows.
Hypothesis Hvalid :
  Forall (λ d, returned (worker_text cfg d)) (fst (ReadData rows (fields_of (cfg_setup cfg)))).
Hypothesis Hwriter : faultless (writer_of (cfg_setup cfg)).

(** The queue takes all the rows, so [main] never blocks in [ReadData]. *)
Lemma inline_small_progress (s : Pipeline) :
  goroutine_inv cfg rows s → alive s → ∃ s', step cfg s s'.
Proof using Hfit Hrows.
  intros Hinv Hal.
  destruct (producer s) as [[|read reader] c|d reader c| |] eqn:Hp.
  - eexists. by eapply step_read_eof.
  - eexists. by eapply step_read.
  - eexists. eapply step_send; [done..|].
    destruct Hinv as (_ & _ & _ & _ & _ & _ & written & _ & Hperm).
    apply Permutation_length in Hperm. rewrite Hp in Hperm. cbn in Hperm.
    rewrite !length_app in Hperm. cbn in Hperm.
    destruct (ReadData_loop_enough (fields_of (cfg_setup cfg)) rows [] 0 [] Hrows)
      as (sent & Hlen & Hsent).
    specialize (Hsent []). rewrite app_nil_r in Hsent.
    change (wrap_uint32 0) with 0 in Hsent. unfold ReadData in Hperm.
    rewrite Hsent in Hperm. cbn in Hperm. lia.
  - eexists. by eapply step_close.
  - apply (progress_when_closed cfg rows); [done..|by right|done].
Qed.

Lemma inline_small_lines :
  (∀ s, reachable cfg (pipeline_start cfg rows) s →
        crashed s = None ∧
        (alive s → ∃ s', step cfg s s') ∧
        (main_pc s = MainExit →
         ∃ written, written ≡ₚ fst (ReadData rows (fields_of (cfg_setup cfg))) ∧
                    length written = length rows ∧
                    output s = output (pipeline_start cfg rows) ++ lines cfg written)) ∧
  (∃ s, reachable cfg (pipeline_start cfg rows) s ∧ main_pc s = MainExit).
Proof using All.
  split.
  - intros s Hr.
    pose proof (goroutine_inv_reachable cfg rows HW Hrows Hvalid Hwriter s Hr) as Hinv.
    split; [apply Hinv|]. split; [by apply inline_small_progress|].
    intros Hexit. destruct (goroutine_inv_exit cfg rows s HW Hinv Hexit) as (written & Hperm & Hout).
    exists written. split; [done|]. split; [|done].
    rewrite (Permutation_length Hperm).
    destruct (ReadData_loop_enough (fields_of (cfg_setup cfg)) rows [] 0 [] Hrows)
      as (sent & Hlen & Hsent).
    specialize (Hsent []). rewrite app_nil_r in Hsent.
    change (wrap_uint32 0) with 0 in Hsent. unfold ReadData. by rewrite Hsent.
  - apply (completes_by_progress cfg rows Hvalid inline_small_progress
             (S (measure cfg (pipeline_start cfg rows)))); [lia|].
    by apply goroutine_inv_start.
Qed.

End inline_small.

(** X24.  Without a source file [main] runs [ReadData] itself; when the
    rows are no more than the queue can take (twice the worker count), all
    is well all the same: no run panics or deadlocks, some run ends with
    [main] returning, and then the output is one line for each row. *)
Theorem pipeline_inline_rows_within_queue (cfg : Config) (rows : Reader) :
  producer_is_goroutine cfg = false →
  1 <= receiverNum (cfg_flags cfg) →
  Z.of_nat (length rows) <= dataList_cap (cfg_setup cfg) →
  Forall (enough_columns (fields_of (cfg_setup cfg))) rows →
  Forall (λ d, returned (worker_text cfg d)) (fst (ReadData rows (fields_of (cfg_setup cfg)))) →
  faultless (writer_of (cfg_setup cfg)) →
  (∀ s, reachable cfg (pipeline_start cfg rows) s →
        crashed s = None ∧
        (alive s → ∃ s', step cfg s s') ∧
        (main_pc s = MainExit →
         ∃ written, written ≡ₚ fst (ReadData rows (fields_of (cfg_setup cfg))) ∧
                    length written = length rows ∧
                    output s = output (pipeline_start cfg rows) ++ lines cfg written)) ∧
  (∃ s, reachable cfg (pipeline_start cfg rows) s ∧ main_pc s = MainExit).
Proof. apply inline_small_lines. Qed.

Lemma pipeline_inline_rows_within_queue_witness :
  (∀ s, reachable Sample.cfg (pipeline_start Sample.cfg (take 2 Sample.three_rows)) s →
        crashed s = None ∧
        (alive s → ∃ s', step Sample.cfg s s') ∧
        (main_pc s = MainExit →
         ∃ written,
           written ≡ₚ fst (ReadData (take 2 Sample.three_rows) (fields_of (cfg_setup Sample.cfg))) ∧
           length written = length (take 2 Sample.three_rows) ∧
           output s = output (pipeline_start Sample.cfg (take 2 Sample.three_rows))
                      ++ lines Sample.cfg written)) ∧
  (∃ s, reachable Sample.cfg (pipeline_start Sample.cfg (take 2 Sample.three_rows)) s ∧
        main_pc s = MainExit).
Proof.
  apply (pipeline_inline_rows_within_queue Sample.cfg (take 2 Sample.three_rows)).
  - reflexivity.
  - cbn. lia.
  - cbn. lia.
  - repeat constructor; apply Sample_row_enough.
  - set (l := fst (ReadData _ _)). vm_compute in l. subst l.
    repeat constructor; eexists; vm_compute; reflexivity.
  - exact I.
Defined.

(** X25.  Without a source file and with more rows than the queue can
    take, [main] blocks in [ReadData] before any worker is started: in
    every state of every run the process is still running without a
    worker and nothing has been written, and some run ends deadlocked. *)
Theorem pipeline_inline_rows_beyond_queue (cfg : Config) (rows : Reader) :
  producer_is_goroutine cfg = false →
  Forall (enough_columns (fields_of (cfg_setup cfg))) rows →
  0 <= dataList_cap (cfg_setup cfg) < Z.of_nat (length rows) →
  (∀ s, reachable cfg (pipeline_start cfg rows) s →
        alive s ∧ workers s = [] ∧ output s = output (pipeline_start cfg rows)) ∧
  (∃ s, reachable cfg (pipeline_start cfg rows) s ∧ deadlocked cfg s).
Proof.
  intros Hmode Hrows Hcap.
  destruct (inline_blocks cfg rows Hmode Hrows Hcap) as [Hall Hdead].
  split; [|exact Hdead]. intros s Hr. destruct (Hall s Hr) as (Hal & Hws & Hw & Hout).
  split; [done|]. split; [done|]. unfold output. by rewrite Hw, Hout.
Qed.

Lemma pipeline_inline_rows_beyond_queue_witness :
  (∀ s, reachable Sample.cfg (pipeline_start Sample.cfg Sample.three_rows) s →
        alive s ∧ workers s = [] ∧
        output s = output (pipeline_start Sample.cfg Sample.three_rows)) ∧
  (∃ s, reachable Sample.cfg (pipeline_start Sample.cfg Sample.three_rows) s ∧
        deadlocked Sample.cfg s).
Proof.
  apply (pipeline_inline_rows_beyond_queue Sample.cfg Sample.three_rows).
  - reflexivity.
  - apply Sample_three_rows_enough.
  - cbn. lia.
Defined.

Lemma nsteps_measure (cfg : Config) (n : nat) (s s' : Pipeline) :
  nsteps (step cfg) n s s' → (n + measure cfg s' ≤ measure cfg s)%nat.
Proof.
  induction 1 as [|n s1 s2 s3 Hstep _ IH]; [lia|].
  pose proof (step_measure cfg s1 s2 Hstep). lia.
Qed.

(** X26.  Every run is finite: from the start no run makes more than
    [4 * rows + 2 * workers + 4] steps, whatever the rows, the mode and the
    failures on the way. *)
Theorem pipeline_run_length (cfg : Config) (rows : Reader) (n : nat) (s : Pipeline) :
  nsteps (step cfg) n (pipeline_start cfg rows) s →
  (n ≤ 4 * length rows + 2 * Z.to_nat (receiverNum (cfg_flags cfg)) + 4)%nat.
Proof.
  intros Hrun. apply nsteps_measure in Hrun.
  unfold measure at 2 in Hrun. cbn in Hrun. rewrite Z.sub_0_r in Hrun. lia.
Qed.

Lemma pipeline_run_length_witness :
  (1 ≤ 4 * length Sample.three_rows
       + 2 * Z.to_nat (receiverNum (cfg_flags Sample.cfg_file)) + 4)%nat.
Proof.
  apply (pipeline_run_length Sample.cfg_file Sample.three_rows 1
           (set_main (pipeline_start Sample.cfg_file Sample.three_rows)
                     (MainSpawn (0 + 1)) ([] ++ [WRange]))).
  apply nsteps_once.
  apply (step_spawn Sample.cfg_file (pipeline_start Sample.cfg_file Sample.three_rows) 0).
  - split; [reflexivity|discriminate].
  - left. reflexivity.
  - reflexivity.
  - cbn. lia.
Defined.

Lemma goroutine_inv_exit_state (cfg : Config) (rows : Reader) (s : Pipeline) :
  1 <= receiverNum (cfg_flags cfg) →
  goroutine_inv cfg rows s → main_pc s = MainExit →
  held (workers s) = [] ∧ queue s = [] ∧
  pending (fields_of (cfg_setup cfg)) (producer s) = [].
Proof.
  intros HW (Hcr & Hfl & Hcl & Hrl & Hmain & Hdone & _) Hexit.
  rewrite Hexit in Hmain. destruct Hmain as [Hlen Hall].
  split; [by apply held_all_done|].
  destruct (workers s) as [|w ws] eqn:Hws; [cbn in Hlen; lia|].
  destruct Hdone as [Hclosed Hq].
  { apply Forall_cons in Hall as [-> _]. apply list_elem_of_here. }
  split; [done|]. rewrite Hclosed in Hcl. by destruct (producer s).
Qed.

Section single_worker.
Variable cfg : Config.
Variable rows : Reader.
Hypothesis HW1 : receiverNum (cfg_flags cfg) = 1.
Hypothesis Hrows : Forall (enough_columns (fields_of (cfg_setup cfg))) rows.
Hypothesis Hvalid :
  Forall (λ d, returned (worker_text cfg d)) (fst (ReadData rows (fields_of (cfg_setup cfg)))).
Hypothesis Hwriter : faultless (writer_of (cfg_setup cfg)).

Lemma single_worker_at (s : Pipeline) (k : nat) (w : Worker) :
  goroutine_inv cfg rows s → alive s → workers s !! k = Some w →
  workers s = [w] ∧ k = 0%nat.
Proof using HW1.
  intros (_ & _ & _ & _ & Hmain & _) [_ Hne] Hk.
  assert (length (workers s) ≤ 1)%nat as Hlen.
  { destruct (main_pc s); [lia|lia|done]. }
  destruct (workers s) as [|w0 [|w1 ws]]; cbn in Hlen; [by destruct k| |lia].
  destruct k as [|k]; cbn in Hk; [|by destruct k].
  by injection Hk as <-.
Qed.

Lemma fifo_inv_start : fifo_inv cfg rows (pipeline_start cfg rows).
Proof using Type.
  exists []. unfold pipeline_start. cbn. by rewrite app_nil_r.
Qed.

Lemma fifo_inv_step (s s' : Pipeline) :
  goroutine_inv cfg rows s → fifo_inv cfg rows s → step cfg s s' → fifo_inv cfg rows s'.
Proof using HW1 Hvalid.
  intros Hinv (written & Hout & Heq) Hstep.
  pose proof Hinv as (Hcr & Hfl & Hcl & Hrl & Hmain & Hdone & _).
  inversion Hstep as
    [s1 read reader count Hal Hp | s1 count Hal Hp | s1 d reader count Hal Hp Hlt
    | s1 Hal Hp | s1 i Hal Hpast Hm Hi | s1 i Hal Hpast Hm Hi | s1 Hal Hm Hall
    | s1 k d q Hal Hk Hqueue | s1 k Hal Hk Hqueue Hclosed | s1 k d Hal Hk];
    subst s1; try subst s'.
  - rewrite Hp in Hrl, Heq. cbn in Hrl. apply Forall_cons in Hrl as [Hen Hrl].
    destruct (ReadData_iter_enough _ _ count Hen) as [m Hit]. rewrite Hit.
    exists written. split; [done|].
    by rewrite (pending_read _ _ _ _ _ _ Hit) in Heq.
  - exists written. split; [done|]. by rewrite Hp in Heq.
  - exists written. split; [done|]. rewrite Hp in Heq. cbn in Heq. cbn.
    by rewrite <- (assoc_L (++)).
  - exists written. split; [done|]. by rewrite Hp in Heq.
  - exists written. split; [done|]. cbn -[held pending].
    unfold held. rewrite bind_app. cbn -[pending]. by rewrite app_nil_r.
  - by exists written.
  - by exists written.
  - destruct (single_worker_at s k _ Hinv Hal Hk) as [Hws ->].
    exists written. split; [done|]. rewrite Hws, Hqueue in Heq. cbn in Heq.
    cbn -[pending]. rewrite Hws. exact Heq.
  - destruct (single_worker_at s k _ Hinv Hal Hk) as [Hws ->].
    exists written. split; [done|]. rewrite Hws, Hqueue in Heq. cbn in Heq.
    cbn -[pending]. rewrite Hws. exact Heq.
  - destruct (single_worker_at s k _ Hinv Hal Hk) as [Hws ->].
    rewrite Hws in Heq. cbn in Heq.
    assert (returned (worker_text cfg d)) as [text Htext].
    { apply (proj1 (Forall_forall _ _) Hvalid d). rewrite <- Heq.
      apply elem_of_app. right. apply list_elem_of_here. }
    rewrite Htext.
    destruct (Writer_Write_faultless (writer s) (stdout s) text Hfl)
      as (w' & out' & -> & Hfl' & Hout').
    exists (written ++ [d]). split.
    + unfold output in *. cbn. rewrite Hout', Hout, lines_snoc.
      unfold text_of. rewrite Htext. by rewrite <- (assoc_L (++)).
    + cbn -[pending]. rewrite Hws. cbn -[pending]. by rewrite <- (assoc_L (++)).
Qed.

Lemma single_worker_order :
  ∀ s, reachable cfg (pipeline_start cfg rows) s →
       (∃ written rest,
          fst (ReadData rows (fields_of (cfg_setup cfg))) = written ++ rest ∧
          output s = output (pipeline_start cfg rows) ++ lines cfg written) ∧
       (main_pc s = MainExit →
        output s = output (pipeline_start cfg rows)
                   ++ lines cfg (fst (ReadData rows (fields_of (cfg_setup cfg))))).
Proof using All.
  intros s Hr.
  assert (1 <= receiverNum (cfg_flags cfg)) as HW by lia.
  assert (goroutine_inv cfg rows s ∧ fifo_inv cfg rows s) as [Hinv (written & Hout & Heq)].
  { apply (reachable_invariant cfg (λ s, goroutine_inv cfg rows s ∧ fifo_inv cfg rows s)
             (pipeline_start cfg rows) s); [| |exact Hr].
    - split; [by apply goroutine_inv_start|apply fifo_inv_start].
    - intros s1 s2 [Hi Hf] Hstep. split; [by eapply goroutine_inv_step|by eapply fifo_inv_step]. }
  split.
  - exists written. eexists. split; [symmetry; exact Heq|done].
  - intros Hexit.
    destruct (goroutine_inv_exit_state cfg rows s HW Hinv Hexit) as (Hh & Hq & Hp).
    rewrite Hh, Hq, Hp in Heq. rewrite !app_nil_r in Heq. by rewrite <- Heq.
Qed.

End single_worker.

(** X27.  With a single worker ([-recv 1]) the output keeps the order of
    the input: at every moment of every run what has been written is the
    lines of a first part of the rows, in their order, and when [main] has
    returned it is the lines of all the rows in input order. *)
Theorem pipeline_single_worker_keeps_order (cfg : Config) (rows : Reader) :
  receiverNum (cfg_flags cfg) = 1 →
  Forall (enough_columns (fields_of (cfg_setup cfg))) rows →
  Forall (λ d, returned (worker_text cfg d)) (fst (ReadData rows (fields_of (cfg_setup cfg)))) →
  faultless (writer_of (cfg_setup cfg)) →
  ∀ s, reachable cfg (pipeline_start cfg rows) s →
       (∃ written rest,
          fst (ReadData rows (fields_of (cfg_setup cfg))) = written ++ rest ∧
          output s = output (pipeline_start cfg rows) ++ lines cfg written) ∧
       (main_pc s = MainExit →
        output s = output (pipeline_start cfg rows)
                   ++ lines cfg (fst (ReadData rows (fields_of (cfg_setup cfg))))).
Proof. apply single_worker_order. Qed.

Lemma pipeline_single_worker_keeps_order_witness :
  (∃ written rest,
     fst (ReadData Sample.three_rows (fields_of (cfg_setup Sample.cfg_file))) = written ++ rest ∧
     output (pipeline_start Sample.cfg_file Sample.three_rows)
       = output (pipeline_start Sample.cfg_file Sample.three_rows)
         ++ lines Sample.cfg_file written) ∧
  (main_pc (pipeline_start Sample.cfg_file Sample.three_rows) = MainExit →
   output (pipeline_start Sample.cfg_file Sample.three_rows)
     = output (pipeline_start Sample.cfg_file Sample.three_rows)
       ++ lines Sample.cfg_file
            (fst (ReadData Sample.three_rows (fields_of (cfg_setup Sample.cfg_file))))).
Proof.
  apply (pipeline_single_worker_keeps_order Sample.cfg_file Sample.three_rows).
  - reflexivity.
  - apply Sample_three_rows_enough.
  - apply Sample_three_rows_valid.
  - exact I.
  - apply rtc_refl.
Defined.

(** ** From the field list to the worker, and parseData as a whole *)

Lemma ReadData_assign_in_range (fields records : list string) :
  ∀ (k : nat) (m m' : gmap string GoAny),
    (k ≤ length records)%nat →
    ReadData_assign fields k records m = Return m' →
    (k + length fields ≤ length records)%nat.
Proof.
  induction fields as [|v rest IH]; intros k m m' Hk Hrun; [cbn; lia|].
  cbn [ReadData_assign] in Hrun. unfold index in Hrun.
  destruct (records !! k) as [r|] eqn:Hr; [|discriminate]. cbn in Hrun.
  apply lookup_lt_Some in Hr. apply IH in Hrun; [|lia]. cbn [length]. lia.
Qed.

Lemma ReadData_assign_strings (fields records : list string) :
  ∀ (k : nat) (m m' : gmap string GoAny),
    ReadData_assign fields k records m = Return m' →
    ∀ key, key ∈ fields → ∃ r, r ∈ records ∧ m' !! key = Some (AString r).
Proof.
  induction fields as [|v rest IH]; intros k m m' Hrun key Hkey.
  - by apply elem_of_nil in Hkey.
  - cbn [ReadData_assign] in Hrun. unfold index in Hrun.
    destruct (records !! k) as [r|] eqn:Hr; [|discriminate]. cbn in Hrun.
    destruct (decide (key ∈ rest)) as [Hin|Hno]; [by eapply IH|].
    apply elem_of_cons in Hkey as [->|Hkey]; [|done].
    exists r. split; [apply list_elem_of_lookup; eauto|].
    destruct (ReadData_assign_spec rest records (S k) (<[v:=AString r]> m))
      as (m2 & Hrun2 & Hother & _).
    { apply lookup_lt_Some in Hr. eapply ReadData_assign_in_range; [|exact Hrun]. lia. }
    rewrite Hrun in Hrun2. injection Hrun2 as <-.
    rewrite Hother by done. apply lookup_insert_eq.
Qed.

(** X28.  The check of the field list in [main] and [ReadData] together
    make the worker's type assertion of line 275 safe: when the payload
    field passed the check, every record [ReadData] sends has it, bound to
    a string that is a column of the record's row. *)
Theorem ReadData_payload_field_is_string (reader : Reader) (fields : list string)
    (dataField : string) (i : nat) (d : Data) :
  main_hasDataField fields dataField = Return true →
  fst (ReadData reader fields) !! i = Some d →
  ∃ records err s,
    reader !! i = Some (Some records, err) ∧ s ∈ records ∧
    data d !! dataField = Some (AString s).
Proof.
  intros Hcheck Hi. apply main_hasDataField_true in Hcheck. unfold ReadData in Hi.
  destruct (ReadData_loop_sent fields reader 0 []) as (sent & Hsent & Hnth).
  change (wrap_uint32 0) with 0 in Hsent. rewrite Hsent in Hi. cbn in Hi.
  destruct (Hnth i d Hi) as ([recs err] & c' & Hread & Hit).
  assert (err ≠ Some EOF) as Herr by (intros ->; by destruct recs).
  rewrite <- (ReadData_iter_ignores_error recs err) in Hit by done.
  unfold ReadData_iter in Hit. destruct recs as [records|]; [|discriminate].
  cbn zeta in Hit.
  destruct (length records <? length fields)%nat; [discriminate|].
  destruct (ReadData_assign fields 0 records ∅) as [m|p] eqn:Hrun; [|discriminate].
  injection Hit as <- _.
  destruct (ReadData_assign_strings _ _ _ _ _ Hrun dataField Hcheck) as (s & Hs & Hm).
  by exists records, err, s.
Qed.

Lemma ReadData_payload_field_is_string_witness :
  ∃ records err s,
    Sample.three_rows !! 1%nat = Some (Some records, err) ∧ s ∈ records ∧
    data {| line := 2;
            data := <["data" := AString Sample.alice_hex]> (<["id" := AString "2"]> ∅) |}
      !! "data" = Some (AString s).
Proof.
  apply (ReadData_payload_field_is_string Sample.three_rows ["id"; "data"] "data" 1).
  - reflexivity.
  - reflexivity.
Defined.

(** X29.  When the message name is unknown or resolves to a message type,
    and the library hands out messages of that type only, [parseData]
    panics on exactly the two texts the normalizer panics on, the empty
    text and ["0"]; on every other text it returns a map or an error. *)
Theorem parseData_panics_iff (env : Env) (files : Files) (data : list byte)
    (msgName : string) :
  (∀ desc, Files_FindDescriptorByName env files msgName = inr desc →
           ∃ d, desc = DMessage d ∧
                ∀ b msg, proto_Unmarshal env b d = inr msg → well_typed d msg) →
  panicked (parseData env files data msgName) ↔ data = [] ∨ data = [byte_0].
Proof.
  intros Hlib. rewrite <- parseData_binary_panicked. unfold parseData.
  destruct (parseData_binary data) as [[e|binary]|p]; cbn.
  - split; intros [p Hp]; discriminate.
  - split; [|intros [p Hp]; discriminate].
    intros [p Hp]. exfalso. revert Hp. unfold unmarshalProtoData.
    destruct (Files_FindDescriptorByName env files msgName) as [e|desc] eqn:Hfind; [done|].
    destruct (Hlib desc eq_refl) as (d & -> & Hty). cbn.
    destruct (proto_Unmarshal env binary d) as [e|msg] eqn:Hun; [done|].
    unfold convertToMap. by rewrite convertToMap_fields_foldl by (by eapply Hty).
  - split; intros _; by eexists.
Qed.

Lemma Sample_Person_messages (desc : Descriptor) :
  Files_FindDescriptorByName Sample.env Sample.files "pkg.Person" = inr desc →
  ∃ d, desc = DMessage d ∧
       ∀ b msg, proto_Unmarshal Sample.env b d = inr msg → well_typed d msg.
Proof.
  intros [= <-]. exists Sample.Person. split; [done|].
  intros b msg. cbn [proto_Unmarshal Sample.env].
  case_bool_decide as H1.
  - intros [= <-] f Hf. apply list_elem_of_In in Hf. cbn in Hf.
    destruct Hf as [<-|[<-|[]]]; discriminate.
  - case_bool_decide as H2; [|discriminate]. by destruct H2 as [[=] _].
Defined.

Lemma parseData_panics_iff_witness :
  panicked (parseData Sample.env Sample.files (bytes_of_string "0") "pkg.Person") ↔
  bytes_of_string "0" = [] ∨ bytes_of_string "0" = [byte_0].
Proof.
  apply (parseData_panics_iff Sample.env Sample.files (bytes_of_string "0") "pkg.Person").
  exact Sample_Person_messages.
Defined.
